(** * UGS_Watcher: the change-detection core of [ugs_discord_bot.py]

    A shallow embedding of the normalizer, the canonical indexer, the
    snapshot loader, the differ and the renderer of
    [src/python/ugs_discord_bot.py], followed by the properties of these
    functions.

    Conventions of the embedding.
    - A Python [dict] with string keys is a [gmap string _]; [d.get(k)] is
      [dict_get]; [set(d)] is [dom d].
    - Iterating over a Python [set] visits its elements in an order fixed by
      the hash table.  That order, a function of the elements of the set,
      is a parameter of the development (class [SetOrder]): every result
      holds for every iteration order.
    - A Python exception is a value of [exn], a function that can raise
      returns a [result].
    - Strings are byte strings (the UTF-8 encoding of the Python text):
      byte-wise lexicographic comparison of UTF-8 agrees with Python's
      comparison by code point.
    - Field values are the JSON scalars null, booleans, integers and
      strings.  Floating-point numbers, and arrays and objects as field
      values, are outside the model. *)

From Stdlib Require Import ZArith String Ascii DecimalString DecimalPos.
From stdpp Require Import base option list gmap strings sorting.

(** ** Python values and built-ins *)

Module Py.

(** JSON scalars as Python objects. *)
Inductive value : Type :=
  | VNone
  | VBool (b : bool)
  | VInt (n : Z)
  | VStr (s : string).

#[global] Instance value_eq_dec : EqDecision value.
Proof. solve_decision. Defined.

(** Exceptions, all of them subclasses of Python's [Exception]. *)
Inductive exn : Type :=
  | ValueError
  | KeyError
  | OSError
  | JSONDecodeError.

Inductive result (A : Type) : Type :=
  | Ok (a : A)
  | Raise (e : exn).
Arguments Ok {A} a.
Arguments Raise {A} e.

#[global] Instance result_ret : MRet result := fun A a => Ok a.
#[global] Instance result_bind : MBind result := fun A B f m =>
  match m with
  | Ok a => f a
  | Raise e => Raise e
  end.
#[global] Instance result_fmap : FMap result := fun A B f m =>
  match m with
  | Ok a => Ok (f a)
  | Raise e => Raise e
  end.

(** [try: body except Exception: handler]. *)
Definition try_except {A} (body : result A) (handler : exn -> result A) : result A :=
  match body with
  | Ok a => Ok a
  | Raise e => handler e
  end.

(** Truth value of an object ([bool(x)]), as used by [or] and [if]. *)
Definition truthy (v : value) : bool :=
  match v with
  | VNone => false
  | VBool b => b
  | VInt n => negb (Z.eqb n 0)
  | VStr s => negb (String.eqb s "")
  end.

(** [x or y]. *)
Definition py_or (x y : value) : value := if truthy x then x else y.

(** [x == y] on scalars.  [bool] is a subclass of [int]: [True == 1] and
    [False == 0]. *)
Definition py_eq (x y : value) : bool :=
  match x, y with
  | VNone, VNone => true
  | VBool a, VBool b => Bool.eqb a b
  | VInt a, VInt b => Z.eqb a b
  | VBool a, VInt b | VInt b, VBool a => Z.eqb b (if a then 1%Z else 0%Z)
  | VStr a, VStr b => String.eqb a b
  | _, _ => false
  end.

(** [str(n)] for an integer. *)
Definition str_int (n : Z) : string := NilZero.string_of_int (Z.to_int n).

(** [str(x)]. *)
Definition py_str (v : value) : string :=
  match v with
  | VNone => "None"
  | VBool true => "True"
  | VBool false => "False"
  | VInt n => str_int n
  | VStr s => s
  end.

(** [int(s)] for a string [s], base ten: surrounding white space is
    skipped, one sign is allowed, and single underscores may separate
    digits.  [None] stands for [ValueError].  This is [int] on strings of
    ASCII characters that are no longer than the interpreter's limit on
    the digits of a numeral (4300 by default): [int] also reads other
    Unicode digits and white space, and rejects longer numerals.  The
    statements that depend on which strings [int] rejects are made for
    such strings ([plain_id]). *)
Definition is_space (c : ascii) : bool :=
  let n := N_of_ascii c in
  (((9 <=? n) && (n <=? 13)) || (n =? 32))%N.

Definition digit_val (c : ascii) : option Z :=
  let n := N_of_ascii c in
  if ((48 <=? n) && (n <=? 57))%N then Some (Z.of_N n - 48)%Z else None.

Fixpoint lstrip (l : list ascii) : list ascii :=
  match l with
  | c :: l' => if is_space c then lstrip l' else l
  | [] => []
  end.

Definition strip (l : list ascii) : list ascii := rev (lstrip (rev (lstrip l))).

(** [prev] tells whether the previous character was a digit. *)
Fixpoint parse_digits (acc : Z) (prev : bool) (l : list ascii) : option Z :=
  match l with
  | [] => if prev then Some acc else None
  | c :: l' =>
      match digit_val c with
      | Some d => parse_digits (10 * acc + d)%Z true l'
      | None =>
          if Ascii.eqb c "_" && prev then parse_digits acc false l' else None
      end
  end.

(** The optional sign and the digits. *)
Definition parse_signed (l : list ascii) : option Z :=
  match l with
  | "-"%char :: l' => Z.opp <$> parse_digits 0 false l'
  | "+"%char :: l' => parse_digits 0 false l'
  | _ => parse_digits 0 false l
  end.

Definition py_int (s : string) : option Z :=
  parse_signed (strip (list_ascii_of_string s)).

(** [int(s)] as a computation that can raise. *)
Definition int (s : string) : result Z :=
  match py_int s with
  | Some n => Ok n
  | None => Raise ValueError
  end.

(** The order in which a [set] of strings is iterated. *)
Class SetOrder := {
  set_iter : gset string -> list string;
  set_iter_perm : forall X, set_iter X ≡ₚ elements X
}.

(** One iteration order, used to evaluate examples. *)
Definition elements_order : SetOrder :=
  {| set_iter := elements; set_iter_perm := fun X => reflexivity (elements X) |}.

(** *** Stable sorting

    [list.sort(key=...)] and [sorted(..., key=...)] are stable and compare
    keys with [<] only.  Insertion sort is the model: [x], which precedes
    every element of [l] in the input, is put in front of the first element
    whose key is not smaller. *)
Section stable_sort.
Context {A K : Type} (lt : K -> K -> bool) (key : A -> K).

Fixpoint insert_by (x : A) (l : list A) : list A :=
  match l with
  | [] => [x]
  | y :: l' => if lt (key y) (key x) then y :: insert_by x l' else x :: y :: l'
  end.

Fixpoint sort_by (l : list A) : list A :=
  match l with
  | [] => []
  | x :: l' => insert_by x (sort_by l')
  end.

End stable_sort.

(** [sorted(l, key=int)]: the keys are computed first, in order, and the
    first failing one raises. *)
Fixpoint int_keys (l : list string) : result (list (Z * string)) :=
  match l with
  | [] => Ok []
  | s :: l' => n ← int s; r ← int_keys l'; Ok ((n, s) :: r)
  end.

Definition sorted_key_int (l : list string) : result (list string) :=
  ks ← int_keys l; Ok ((sort_by Z.ltb fst ks).*2).

(** [d.get(k)], with [None] for an absent key. *)
Definition dict_get (d : gmap string value) (k : string) : value :=
  default VNone (d !! k).

(** [d[k]]. *)
Definition dict_getitem {V} (d : gmap string V) (k : string) : result V :=
  match d !! k with
  | Some v => Ok v
  | None => Raise KeyError
  end.

(** [d1 == d2] for dictionaries: same number of keys, and every key of
    [d1] is a key of [d2] with an equal value. *)
Definition dict_eq (d1 d2 : gmap string value) : bool :=
  bool_decide (size d1 = size d2) &&
  forallb (fun kv => match d2 !! kv.1 with
                     | Some w => py_eq kv.2 w
                     | None => false
                     end) (map_to_list d1).

End Py.
Import Py.

(** ** The program *)

(** *** Normalization for diffing *)

Abbreviation entry := (gmap string value).
Abbreviation snapshot := (gmap string (list (gmap string value))).

Definition DUE_KEYS : list string :=
  ["due_at"; "unlock_at"; "lock_at"; "title"; "base"].

(** [normalize_due_entry]: one assignment [out[k] = entry.get(k, None)] per
    key of [DUE_KEYS]. *)
Definition normalize_due_entry (e : entry) : entry :=
  foldl (fun out k => <[k := dict_get e k]> out) ∅ DUE_KEYS.

(** The tuple returned by [sort_key_due]. *)
Definition sort_key : Type := string * Z * string * string * string.

Definition sort_key_due (e : entry) : sort_key :=
  (py_str (py_or (dict_get e "title") (VStr "")),
   if truthy (dict_get e "base") then 1%Z else 0%Z,
   py_str (py_or (dict_get e "due_at") (VStr "")),
   py_str (py_or (dict_get e "unlock_at") (VStr "")),
   py_str (py_or (dict_get e "lock_at") (VStr ""))).

(** Comparison of tuples: the first components that differ decide. *)
Definition lex (c1 c2 : comparison) : comparison :=
  match c1 with
  | Eq => c2
  | _ => c1
  end.

Definition pair_compare {A B} (cA : A -> A -> comparison) (cB : B -> B -> comparison)
    (x y : A * B) : comparison :=
  lex (cA x.1 y.1) (cB x.2 y.2).

Definition sort_key_compare : sort_key -> sort_key -> comparison :=
  pair_compare
    (pair_compare
       (pair_compare (pair_compare String.compare Z.compare) String.compare)
       String.compare)
    String.compare.

Definition sort_key_lt (a b : sort_key) : bool :=
  match sort_key_compare a b with
  | Lt => true
  | _ => false
  end.

(** The value stored under ["due_dates"] in an item of the payload. *)
Inductive due_dates_field : Type :=
  | DueAbsent
  | DueNull
  | DueList (l : list (gmap string value)).

(** An item of the payload: what [item.get("quiz_id")] and
    [item.get("due_dates", [])] read.  [item_quiz_id] is [None] when the
    key is absent and [Some VNone] when it is null. *)
Record item : Type := Item {
  item_quiz_id : option value;
  item_due_dates : due_dates_field
}.

(** The payload: [payload_overrides] is [None] when the key
    ["quiz_assignment_overrides"] is absent. *)
Record payload : Type := Payload {
  payload_overrides : option (list item)
}.

(** [item.get("due_dates", []) or []]. *)
Definition due_dates_or_empty (f : due_dates_field) : list entry :=
  match f with
  | DueAbsent => []
  | DueNull => []
  | DueList l => l
  end.

(** The sorted list of normalized due entries of an item. *)
Definition norm_list (it : item) : list entry :=
  sort_by sort_key_lt sort_key_due
    (normalize_due_entry <$> due_dates_or_empty (item_due_dates it)).

(** One iteration of the loop of [normalize_payload_to_index]. *)
Definition index_step (out : snapshot) (it : item) : snapshot :=
  match default VNone (item_quiz_id it) with
  | VNone => out
  | qid => <[py_str qid := norm_list it]> out
  end.

Definition normalize_payload_to_index (data : payload) : snapshot :=
  foldl index_step ∅ (default [] (payload_overrides data)).

(** *** Snapshot I/O *)

#[local] Set Warnings "-register-all".

(** A decoded JSON document: what [json.loads] returns. *)
Inductive json : Type :=
  | JNull
  | JBool (b : bool)
  | JInt (n : Z)
  | JStr (s : string)
  | JArray (l : list json)
  | JObject (l : list (string * json)).

(** The state of the snapshot file: what [SNAPSHOT_FILE.exists()] does (it
    returns a boolean, or raises, as it does with [PermissionError] when
    the state directory cannot be searched), and what [read_text] does on
    the file. *)
Record store : Type := Store {
  file_exists : result bool;
  read_text : result string
}.

Section load.
(** [json.loads], which raises on a text that is not JSON. *)
Variable json_loads : string -> result json.

(** The test of existence stands before the [try]: what it raises is not
    caught. *)
Definition load_snapshot (st : store) : result json :=
  present ← file_exists st;
  if negb present then Ok (JObject [])
  else try_except (text ← read_text st; json_loads text)
                  (fun _ => Ok (JObject [])).
End load.

(** *** Diff logic *)

(** An object held in a diff: a field value ([None] included) or a whole
    entry. *)
Inductive any : Type :=
  | AVal (v : value)
  | ADict (e : gmap string value).

(** A dictionary from field names to pairs, in insertion order. *)
Definition field_diffs : Type := list (string * (any * any)).

(** [d[k] = v] on a dictionary kept in insertion order. *)
Fixpoint dict_set {V} (d : list (string * V)) (k : string) (v : V) : list (string * V) :=
  match d with
  | [] => [(k, v)]
  | (k', v') :: d' => if String.eqb k' k then (k', v) :: d' else (k', v') :: dict_set d' k v
  end.

(** [k in d] and [d[k]] on such a dictionary. *)
Fixpoint dict_find {V} (d : list (string * V)) (k : string) : option V :=
  match d with
  | [] => None
  | (k', v') :: d' => if String.eqb k' k then Some v' else dict_find d' k
  end.

Definition ENTRY : string := "<entry>".

(** [a[i] if i < len(a) else None] is [a !! i]; a missing entry is
    Python's [None]. *)
Definition side (o : option entry) : any :=
  match o with
  | Some e => ADict e
  | None => AVal VNone
  end.

(** [left == right], where either side may be [None]. *)
Definition side_eq (l r : option entry) : bool :=
  match l, r with
  | Some a, Some b => dict_eq a b
  | None, None => true
  | _, _ => false
  end.

Section diff.
Context `{SetOrder}.

(** The loop over [set(left) | set(right)]. *)
Definition fields_step (left right : entry) (fd : field_diffs) (k : string) : field_diffs :=
  if negb (py_eq (dict_get left k) (dict_get right k))
  then dict_set fd k (AVal (dict_get left k), AVal (dict_get right k))
  else fd.

Definition changed_fields (left right : entry) : field_diffs :=
  foldl (fields_step left right) [] (set_iter (dom left ∪ dom right)).

(** The body of the loop of [list_diff] at index [i]: the diffs with what
    this iteration appends. *)
Definition list_diff_step (a b : list entry) (diffs : list (nat * field_diffs)) (i : nat)
  : list (nat * field_diffs) :=
  let left := a !! i in
  let right := b !! i in
  if side_eq left right then diffs
  else
    let fd :=
      match left, right with
      | Some l, Some r => changed_fields l r
      | _, _ => dict_set [] ENTRY (side left, side right)
      end in
    match fd with
    | [] => diffs
    | _ => (diffs ++ [(i, fd)])%list
    end.

Definition list_diff (a b : list entry) : list (nat * field_diffs) :=
  let maxlen := max (length a) (length b) in
  foldl (list_diff_step a b) [] (seq 0 maxlen).

(** The result of [compute_changes_quiz]. *)
Definition changes : Type :=
  list string * list string * list (string * list (nat * field_diffs)).

(** The third loop of [compute_changes_quiz]. *)
Fixpoint changed_loop (old_idx new_idx : snapshot) (qids : list string)
  : result (list (string * list (nat * field_diffs))) :=
  match qids with
  | [] => Ok []
  | qid :: rest =>
      a ← dict_getitem old_idx qid;
      b ← dict_getitem new_idx qid;
      let diffs := list_diff a b in
      tl ← changed_loop old_idx new_idx rest;
      Ok (match diffs with
          | [] => tl
          | _ => (qid, diffs) :: tl
          end)
  end.

Definition compute_changes_quiz (old_idx new_idx : snapshot) : result changes :=
  let old_ids := dom old_idx in
  let new_ids := dom new_idx in
  added_quizzes ← sorted_key_int (set_iter (new_ids ∖ old_ids));
  removed_quizzes ← sorted_key_int (set_iter (old_ids ∖ new_ids));
  common ← sorted_key_int (set_iter (old_ids ∩ new_ids));
  changed_quizzes ← changed_loop old_idx new_idx common;
  Ok (added_quizzes, removed_quizzes, changed_quizzes).
End diff.

(** *** Rendering *)

Definition nl : string := String "010"%char "".

Section render.
(** [json.dumps(x)] and [str(d)] for a dictionary [d], from Python's
    library. *)
Variable json_dumps : any -> string.
Variable str_dict : gmap string value -> string.

Definition any_truthy (x : any) : bool :=
  match x with
  | AVal v => truthy v
  | ADict e => negb (bool_decide (e = ∅))
  end.

(** [str(x)], which formats [{x}] in an f-string. *)
Definition any_str (x : any) : string :=
  match x with
  | AVal v => py_str v
  | ADict e => str_dict e
  end.

Definition fmt_dt (x : any) : any :=
  if any_truthy x then x else AVal (VStr "null").

(** One element of [pretty] for a field [k] with its pair. *)
Definition pretty_field (kv : string * (any * any)) : string :=
  let '(k, (ov, nv)) := kv in
  if bool_decide (k ∈ ["due_at"; "unlock_at"; "lock_at"])
  then k +:+ ": `" +:+ any_str (fmt_dt ov) +:+ "` → `" +:+ any_str (fmt_dt nv) +:+ "`"
  else k +:+ ": `" +:+ any_str ov +:+ "` → `" +:+ any_str nv +:+ "`".

(** The list [pretty] built for one position. *)
Definition pretty (idx : nat) (fields : field_diffs) : list string :=
  match dict_find fields ENTRY with
  | Some (ov, nv) =>
      ["entry #" +:+ str_int (Z.of_nat idx) +:+ ": " +:+ json_dumps ov
         +:+ " → " +:+ json_dumps nv]
  | None => pretty_field <$> fields
  end.

Definition position_line (d : nat * field_diffs) : string :=
  "   • " +:+ String.concat "; " (pretty d.1 d.2).

Definition quiz_lines (c : string * list (nat * field_diffs)) : list string :=
  ("- quiz `" +:+ c.1 +:+ "`") :: (position_line <$> c.2).

Definition quoted (q : string) : string := "`" +:+ q +:+ "`".

(** The lines appended by each of the three [if] statements. *)
Definition added_block (added_qids : list string) : list string :=
  match added_qids with
  | [] => []
  | _ => ["**➕ Quizzes added (new overrides):** "
            +:+ String.concat ", " (quoted <$> added_qids)]
  end.

Definition removed_block (removed_qids : list string) : list string :=
  match removed_qids with
  | [] => []
  | _ => ["**➖ Quizzes removed (overrides gone):** "
            +:+ String.concat ", " (quoted <$> removed_qids)]
  end.

Definition changed_block (changed_qids : list (string * list (nat * field_diffs)))
  : list string :=
  match changed_qids with
  | [] => []
  | _ => "**✏️ Overrides changed:**" :: (changed_qids ≫= quiz_lines)
  end.

Definition header (course_id : string) : string :=
  "@everyone 📣 Canvas changes detected for course `" +:+ course_id
    +:+ "` (quiz_assignment_overrides)".

Definition render_change_message_quiz
    (added_qids removed_qids : list string)
    (changed_qids : list (string * list (nat * field_diffs)))
    (course_id : string) : string :=
  let lines : list string := [] in
  let lines := (lines ++ added_block added_qids)%list in
  let lines := (lines ++ removed_block removed_qids)%list in
  let lines := (lines ++ changed_block changed_qids)%list in
  match lines with
  | [] => ""
  | _ => header course_id +:+ nl +:+ String.concat nl lines
  end.
End render.

(** ** Vocabulary of the specification *)

(** What makes a three-way comparison a total order. *)
Record compare_ok {A} (c : A -> A -> comparison) : Prop := CompareOk {
  cmp_antisym : forall x y, c x y = CompOpp (c y x);
  cmp_eq : forall x y, c x y = Eq -> x = y;
  cmp_lt_trans : forall x y z, c x y = Lt -> c y z = Lt -> c x z = Lt
}.

(** [x] may stand before [y] in a list sorted by [key] under [lt]:
    [key y < key x] is false. *)
Definition may_precede {A K} (lt : K -> K -> bool) (key : A -> K) (x y : A) : Prop :=
  lt (key y) (key x) = false.

(** A group is sorted by the key of [sort_key_due]: no entry has a key
    greater than the key of a later entry. *)
Definition key_le (x y : gmap string value) : Prop :=
  sort_key_compare (sort_key_due x) (sort_key_due y) ≠ Gt.

Definition sorted_group (g : list (gmap string value)) : Prop :=
  StronglySorted key_le g.

(** The components of the key that the order of ["base"] is about. *)
Definition title_key (e : gmap string value) : string :=
  py_str (py_or (dict_get e "title") (VStr "")).

Definition is_base (e : gmap string value) : bool :=
  truthy (dict_get e "base").

(** The order as the specification words it: as [sort_key_compare], but
    with the is-base flag descending. *)
Definition claimed_key_compare : sort_key -> sort_key -> comparison :=
  pair_compare
    (pair_compare
       (pair_compare (pair_compare String.compare (flip Z.compare)) String.compare)
       String.compare)
    String.compare.

Definition claimed_key_le (x y : gmap string value) : Prop :=
  claimed_key_compare (sort_key_due x) (sort_key_due y) ≠ Gt.

Definition claimed_sorted_group (g : list (gmap string value)) : Prop :=
  StronglySorted claimed_key_le g.

(** The key under which an item is stored, if it is stored. *)
Definition item_key (it : item) : option string :=
  match default VNone (item_quiz_id it) with
  | VNone => None
  | qid => Some (py_str qid)
  end.

(** ** Vocabulary of the differ *)

(** [x] precedes [y] in the numeric order of identifiers. *)
Definition int_le (x y : string) : Prop :=
  match py_int x, py_int y with
  | Some m, Some n => (m ≤ n)%Z
  | _, _ => False
  end.

(** The value of a decimal numeral read from the left, [acc] being the
    value of the digits already read. *)
Fixpoint uint_val (acc : Z) (d : Decimal.uint) : Z :=
  match d with
  | Decimal.Nil => acc
  | Decimal.D0 d => uint_val (10 * acc + 0) d
  | Decimal.D1 d => uint_val (10 * acc + 1) d
  | Decimal.D2 d => uint_val (10 * acc + 2) d
  | Decimal.D3 d => uint_val (10 * acc + 3) d
  | Decimal.D4 d => uint_val (10 * acc + 4) d
  | Decimal.D5 d => uint_val (10 * acc + 5) d
  | Decimal.D6 d => uint_val (10 * acc + 6) d
  | Decimal.D7 d => uint_val (10 * acc + 7) d
  | Decimal.D8 d => uint_val (10 * acc + 8) d
  | Decimal.D9 d => uint_val (10 * acc + 9) d
  end.

(** Every identifier of the snapshot is the string form of an integer. *)
Definition canonical_ids (s : gmap string (list (gmap string value))) : Prop :=
  ∀ k, k ∈ dom s → ∃ n : Z, k = str_int n.

(** An identifier on which [py_int] is Python's [int]: ASCII characters
    only, and at most 4300 of them. *)
Definition plain_id (k : string) : bool :=
  forallb (λ c, (N_of_ascii c <? 128)%N) (list_ascii_of_string k) &&
  (String.length k <=? 4300)%nat.

Definition plain_ids (s : gmap string (list (gmap string value))) : Prop :=
  ∀ k, k ∈ dom s → plain_id k = true.

(** Every identifier of the snapshot parses as an integer. *)
Definition ids_parse (s : gmap string (list (gmap string value))) : Prop :=
  ∀ k, k ∈ dom s → is_Some (py_int k).

(** The components of the result of [compute_changes_quiz]. *)
Definition added (c : changes) : list string := c.1.1.
Definition removed (c : changes) : list string := c.1.2.
Definition changed (c : changes) : list (string * list (nat * field_diffs)) := c.2.

(** The pair recorded for field [k] of two entries. *)
Definition field_pair (left right : gmap string value) (k : string)
  : string * (any * any) :=
  (k, (AVal (dict_get left k), AVal (dict_get right k))).

(** The values of field [k] differ. *)
Definition differs (left right : gmap string value) (k : string) : Prop :=
  py_eq (dict_get left k) (dict_get right k) = false.

#[global] Instance differs_dec left right k : Decision (differs left right k).
Proof. unfold differs. apply _. Defined.

(** [x == y] on the objects held in a diff. *)
Definition any_eq (x y : any) : bool :=
  match x, y with
  | AVal v, AVal w => py_eq v w
  | ADict d, ADict e => dict_eq d e
  | _, _ => false
  end.

(** What [list_diff] computes for position [i], before it is tested for
    emptiness. *)
Definition position_diff `{SetOrder} (a b : list (gmap string value)) (i : nat)
  : field_diffs :=
  match a !! i, b !! i with
  | Some l, Some r => if dict_eq l r then [] else changed_fields l r
  | Some l, None => [(ENTRY, (ADict l, AVal VNone))]
  | None, Some r => [(ENTRY, (AVal VNone, ADict r))]
  | None, None => []
  end.

(** What the third loop of [compute_changes_quiz] appends for [qid]. *)
Definition changed_of `{SetOrder} (old_idx new_idx : gmap string (list (gmap string value)))
    (qid : string) : option (string * list (nat * field_diffs)) :=
  a ← old_idx !! qid;
  b ← new_idx !! qid;
  match list_diff a b with
  | [] => None
  | diffs => Some (qid, diffs)
  end.

(** What one iteration of the loop of [list_diff] appends for position
    [i]. *)
Definition position_entry `{SetOrder} (a b : list (gmap string value)) (i : nat)
  : option (nat * field_diffs) :=
  match position_diff a b i with
  | [] => None
  | fd => Some (i, fd)
  end.

(** The field names of a position that holds the whole-entry marker are
    the marker alone, and exactly one side of its pair is [None]. *)
Definition marker_alone (fd : field_diffs) : Prop :=
  ∀ ov nv, (ENTRY, (ov, nv)) ∈ fd →
    fd.*1 = [ENTRY] ∧
    ((ov = AVal VNone ∧ nv ≠ AVal VNone) ∨ (ov ≠ AVal VNone ∧ nv = AVal VNone)).

(** A well-formed result of the comparison of [a] and [b]. *)
Definition well_formed_diffs (a b : list (gmap string value))
    (diffs : list (nat * field_diffs)) : Prop :=
  StronglySorted lt diffs.*1 ∧
  ∀ i fd, (i, fd) ∈ diffs →
    (i < max (length a) (length b))%nat ∧
    (∀ k ov nv, (k, (ov, nv)) ∈ fd → any_eq ov nv = false) ∧
    marker_alone fd.

(** A JSON document that is a mapping. *)
Definition is_mapping (doc : json) : Prop := ∃ items, doc = JObject items.

(** ** Example data *)

(** A snapshot file that holds the text [null], and a state directory on
    which the test of existence raises. *)
Definition ex_store_null : store := Store (Ok true) (Ok "null").
Definition ex_store_denied : store := Store (Raise OSError) (Raise OSError).

(** A decoder for the examples: it knows the text [null]. *)
Definition ex_json_loads (text : string) : result json :=
  if decide (text = "null") then Ok JNull else Raise JSONDecodeError.

Definition ex_base : gmap string value :=
  <["title" := VStr "A"]> (<["base" := VBool true]> ∅).

Definition ex_nonbase : gmap string value :=
  <["title" := VStr "A"]> (<["base" := VBool false]> ∅).

(** One quiz whose override for everyone (base) comes before another
    override with the same title. *)
Definition ex_payload_base_first : payload :=
  Payload (Some [Item (Some (VInt 1)) (DueList [ex_base; ex_nonbase])]).

(** Two items with the same quiz id. *)
Definition ex_item_first : item := Item (Some (VInt 1)) (DueList [ex_base]).
Definition ex_item_second : item := Item (Some (VInt 1)) DueAbsent.
Definition ex_payload_duplicate : payload :=
  Payload (Some [ex_item_first; ex_item_second]).

(** Snapshots for the examples: quiz 10 gains an entry, quizzes 3 and 20
    are new. *)
Definition ex_old : gmap string (list (gmap string value)) :=
  <["10" := [normalize_due_entry ex_base]]> ∅.

Definition ex_new : gmap string (list (gmap string value)) :=
  <["3" := []]> (<["20" := []]>
    (<["10" := [normalize_due_entry ex_nonbase; normalize_due_entry ex_base]]> ∅)).

(** Entries that use the marker as a field name. *)
Definition ex_marked_old : gmap string value := <[ENTRY := VInt 1]> ∅.
Definition ex_marked_new : gmap string value := <[ENTRY := VInt 2]> ∅.

(** ** Further vocabulary of the differ *)

(** A recorded pair with old and new value exchanged, and a position with
    all its pairs exchanged. *)
Definition swap_pair (p : string * (any * any)) : string * (any * any) :=
  (p.1, (p.2.2, p.2.1)).

Definition mirror (d : nat * field_diffs) : nat * field_diffs :=
  (d.1, swap_pair <$> d.2).

(** The whole-entry diffs of an entry that appears and of one that
    disappears. *)
Definition entry_added (e : gmap string value) : field_diffs :=
  [(ENTRY, (AVal VNone, ADict e))].

Definition entry_removed (e : gmap string value) : field_diffs :=
  [(ENTRY, (ADict e, AVal VNone))].

(** [get] returns equal values on two entries, for every field name. *)
Definition same_fields (l r : gmap string value) : Prop :=
  ∀ k, py_eq (dict_get l k) (dict_get r k) = true.

(** Every quiz id of the payload is [None], missing, or an integer of at
    most 4300 digits, as the integers of a decoded JSON document are. *)
Definition integer_ids (data : payload) : Prop :=
  Forall (λ it, ∀ qid, item_quiz_id it = Some qid →
                qid = VNone ∨
                ∃ n, qid = VInt n ∧ (String.length (str_int n) ≤ 4300)%nat)
         (default [] (payload_overrides data)).

#[global] Instance sort_key_eq_dec : EqDecision sort_key.
Proof. unfold sort_key. apply _. Defined.

(** ** String methods of Python

    As everywhere, a string is the UTF-8 encoding of the Python text.  The
    separators, the brackets and the white space that the program looks
    for are ASCII characters, which never occur inside the encoding of
    another character.  [strip] removes ASCII white space only: text that
    starts or ends with other Unicode white space is outside the model. *)

(** [c.isspace()] for an ASCII character: tab to carriage return, the four
    separators 28 to 31, and the blank. *)
Definition str_isspace (c : ascii) : bool :=
  let n := N_of_ascii c in
  (((9 <=? n) && (n <=? 13)) || ((28 <=? n) && (n <=? 32)))%N.

Fixpoint str_lstrip (s : string) : string :=
  match s with
  | String c s' => if str_isspace c then str_lstrip s' else s
  | EmptyString => EmptyString
  end.

Fixpoint str_rstrip (s : string) : string :=
  match s with
  | EmptyString => EmptyString
  | String c s' =>
      match str_rstrip s' with
      | EmptyString => if str_isspace c then EmptyString else String c EmptyString
      | t => String c t
      end
  end.

(** [s.strip()]. *)
Definition str_strip (s : string) : string := str_rstrip (str_lstrip s).

(** [s.split(sep)] for a separator of one character: never an empty
    list. *)
Fixpoint split_char (sep : ascii) (s : string) : list string :=
  match s with
  | EmptyString => [EmptyString]
  | String c s' =>
      if Ascii.eqb c sep then EmptyString :: split_char sep s'
      else match split_char sep s' with
           | h :: t => String c h :: t
           | [] => [String c EmptyString]
           end
  end.

(** [s.split(sep, 1)] when [sep in s], and [None] when [sep] is not in
    [s]. *)
Fixpoint split_first (sep : ascii) (s : string) : option (string * string) :=
  match s with
  | EmptyString => None
  | String c s' =>
      if Ascii.eqb c sep then Some (EmptyString, s')
      else (λ p : string * string, (String c p.1, p.2)) <$> split_first sep s'
  end.

(** [needle in s]. *)
Fixpoint str_contains (needle s : string) : bool :=
  String.prefix needle s ||
  match s with
  | EmptyString => false
  | String _ s' => str_contains needle s'
  end.

(** A byte that continues the encoding of a character. *)
Definition is_continuation (c : ascii) : bool :=
  let n := N_of_ascii c in ((128 <=? n) && (n <? 192))%N.

Fixpoint all_continuation (s : string) : bool :=
  match s with
  | EmptyString => true
  | String c s' => is_continuation c && all_continuation s'
  end.

Fixpoint drop_continuation (s : string) : string :=
  match s with
  | String c s' => if is_continuation c then drop_continuation s' else s
  | EmptyString => EmptyString
  end.

(** [s[1:]] and [s[:-1]]: without the first, without the last
    character. *)
Definition drop_first_char (s : string) : string :=
  match s with
  | EmptyString => EmptyString
  | String _ s' => drop_continuation s'
  end.

Fixpoint drop_last_char (s : string) : string :=
  match s with
  | EmptyString => EmptyString
  | String c s' =>
      if all_continuation s' then EmptyString else String c (drop_last_char s')
  end.

(** [s[1:-1]]. *)
Definition slice_inner (s : string) : string := drop_last_char (drop_first_char s).

(** The characters of a string, and a string without a given
    character. *)
Definition chars (s : string) : list ascii := list_ascii_of_string s.

Definition free_of (c : ascii) (s : string) : Prop := c ∉ chars s.

(** ** Cookies and page links *)

(** The list [parts] of [parse_cookie_string]. *)
Definition cookie_parts (raw : string) : list string :=
  filter (λ p, p ≠ EmptyString) (str_strip <$> split_char ";" raw).

(** One iteration of its loop. *)
Definition cookie_step (cookies : gmap string string) (part : string)
  : gmap string string :=
  match split_first "=" part with
  | Some (k, v) => <[str_strip k := str_strip v]> cookies
  | None => cookies
  end.

Definition parse_cookie_string (raw : string) : gmap string string :=
  if decide (raw = EmptyString) then ∅
  else foldl cookie_step ∅ (cookie_parts raw).

(** The text [rel="next"]. *)
Definition REL_NEXT : string :=
  "rel=" +:+ String "034" ("next" +:+ String "034" EmptyString).

(** The loop of [next_link] over the parts of the header. *)
Fixpoint next_link_parts (parts : list string) : result (option string) :=
  match parts with
  | [] => Ok None
  | part :: rest =>
      match split_char ";" part with
      | [seg; rel] =>
          if str_contains REL_NEXT rel then Ok (Some (slice_inner (str_strip seg)))
          else next_link_parts rest
      | _ => Raise ValueError
      end
  end.

(** [next_link], as a function of the value of the [Link] header of the
    response ([None] when there is no such header; the headers of a
    response ignore the case of the name). *)
Definition next_link (link : option string) : result (option string) :=
  match link with
  | None => Ok None
  | Some l => if decide (l = EmptyString) then Ok None
              else next_link_parts (split_char "," l)
  end.

(** The text [k=v] of a cookie, and a cookie that [parse_cookie_string]
    can return: name and value are stripped and hold no [;], the name
    holds no [=]. *)
Definition pair_text (kv : string * string) : string :=
  kv.1 +:+ String "=" kv.2.

Definition clean_cookie (kv : string * string) : Prop :=
  str_strip kv.1 = kv.1 ∧ str_strip kv.2 = kv.2 ∧
  free_of ";" kv.1 ∧ free_of "=" kv.1 ∧ free_of ";" kv.2.

(** One link of a [Link] header: the address between angle brackets, a
    semicolon, and the parameters. *)
Definition link_text (p : string * string) : string :=
  (String "<" p.1 +:+ ">") +:+ String ";" p.2.

(** An address and parameters that can stand in a link read by
    [next_link]: no comma and no semicolon in either, and an address that
    does not start in the middle of a character. *)
Definition clean_link (p : string * string) : Prop :=
  free_of "," p.1 ∧ free_of ";" p.1 ∧ drop_continuation p.1 = p.1 ∧
  free_of "," p.2 ∧ free_of ";" p.2.

(** The number of occurrences of a character. *)
Definition count_char (c : ascii) (s : string) : nat :=
  length (filter (λ d, d = c) (chars s)).

(** ** More example data *)

(** A payload whose only quiz id is a boolean. *)
Definition ex_item_bool : item := Item (Some (VBool true)) DueAbsent.
Definition ex_payload_bool : payload := Payload (Some [ex_item_bool]).

(** The change-set of [ex_old] and [ex_new]. *)
Definition ex_changes : changes :=
  (["3"; "20"], [],
   [("10", [(0%nat, [("base", (AVal (VBool true), AVal (VBool false)))]);
            (1%nat, [(ENTRY, (AVal VNone, ADict (normalize_due_entry ex_base)))])])]).

(** Cookies, one name twice. *)
Definition ex_cookies : list (string * string) :=
  [("session", "abc"); ("csrf", "x=y"); ("session", "def")].

(** The links of a [Link] header and a link with two parameters. *)
Definition ex_rel_current : string :=
  " rel=" +:+ String "034" ("current" +:+ String "034" EmptyString).

Definition ex_links : list (string * string) :=
  [("https://canvas/api?page=1", ex_rel_current);
   ("https://canvas/api?page=2", " " +:+ REL_NEXT);
   ("https://canvas/api?page=9", ex_rel_current)].

Definition ex_link_two_parameters : string :=
  "<https://canvas/api?page=2>; " +:+ REL_NEXT +:+ "; title=x".

(** ** Properties *)

(** *** The normalizer *)

Lemma normalize_due_entry_unfold (e : gmap string value) :
  normalize_due_entry e =
    <["base" := dict_get e "base"]>
      (<["title" := dict_get e "title"]>
         (<["lock_at" := dict_get e "lock_at"]>
            (<["unlock_at" := dict_get e "unlock_at"]>
               (<["due_at" := dict_get e "due_at"]> ∅)))).
Proof. reflexivity. Qed.

Lemma normalize_due_entry_lookup (e : gmap string value) (k : string) :
  normalize_due_entry e !! k =
    if bool_decide (k ∈ DUE_KEYS) then Some (dict_get e k) else None.
Proof.
  rewrite normalize_due_entry_unfold. unfold DUE_KEYS.
  case_bool_decide as Hk.
  - repeat (apply elem_of_cons in Hk as [->|Hk]; [by simplify_map_eq|]).
    by apply elem_of_nil in Hk.
  - repeat (rewrite lookup_insert_ne; [|intros <-; apply Hk; set_solver]).
    apply lookup_empty.
Qed.

Lemma normalize_due_entry_dom (raw : gmap string value) :
  dom (normalize_due_entry raw) = list_to_set DUE_KEYS.
Proof.
  apply set_eq. intros k. rewrite elem_of_dom, normalize_due_entry_lookup.
  rewrite elem_of_list_to_set. case_bool_decide as Hk; split.
  - done.
  - by eexists.
  - by intros [? ?].
  - done.
Qed.

(** C7. [normalize_due_entry] is a total function of the raw record.  Its
    result has exactly the five recognized fields; a recognized field
    absent from the record is [None], a present one keeps its value
    unchanged, every other field of the record is dropped; and two records
    that agree on what [get] returns for the recognized fields have the
    same normalized entry, whatever else they hold. *)
Theorem normalize_due_entry_spec (raw : gmap string value) :
  dom (normalize_due_entry raw) = list_to_set DUE_KEYS ∧
  (∀ k, k ∈ DUE_KEYS → raw !! k = None → normalize_due_entry raw !! k = Some VNone) ∧
  (∀ k v, k ∈ DUE_KEYS → raw !! k = Some v → normalize_due_entry raw !! k = Some v) ∧
  (∀ k, k ∉ DUE_KEYS → normalize_due_entry raw !! k = None) ∧
  (∀ raw' : gmap string value,
      (∀ k, k ∈ DUE_KEYS → dict_get raw k = dict_get raw' k) →
      normalize_due_entry raw = normalize_due_entry raw').
Proof.
  split_and!.
  - apply normalize_due_entry_dom.
  - intros k Hk Hraw. rewrite normalize_due_entry_lookup, bool_decide_eq_true_2 by done.
    unfold dict_get. by rewrite Hraw.
  - intros k v Hk Hraw. rewrite normalize_due_entry_lookup, bool_decide_eq_true_2 by done.
    unfold dict_get. by rewrite Hraw.
  - intros k Hk. by rewrite normalize_due_entry_lookup, bool_decide_eq_false_2.
  - intros raw' Hagree. apply map_eq. intros k.
    rewrite !normalize_due_entry_lookup. case_bool_decide; [|done].
    by rewrite Hagree.
Qed.

(** *** The snapshot store *)




(** *** The renderer *)

Lemma string_app_nonempty (s t : string) : s ≠ "" → s +:+ t ≠ "".
Proof. destruct s; [done|]. intros _. discriminate. Qed.

Lemma header_nonempty (course_id : string) : header course_id ≠ "".
Proof. unfold header. by apply string_app_nonempty. Qed.

Lemma added_block_nil (added : list string) : added_block added = [] ↔ added = [].
Proof. by destruct added. Qed.

Lemma removed_block_nil (removed : list string) : removed_block removed = [] ↔ removed = [].
Proof. by destruct removed. Qed.

Lemma changed_block_nil json_dumps str_dict (changed : list (string * list (nat * field_diffs))) :
  changed_block json_dumps str_dict changed = [] ↔ changed = [].
Proof. by destruct changed. Qed.

(** C4. The rendered text is empty exactly when the three components are
    empty.  Otherwise it is not empty and consists of the header, which
    names the course, a line break, and the lines of the added block, of
    the removed block and of the changed block, in this order and
    separated by line breaks; a block has no line exactly when its
    component is empty, and a block that has lines starts with its
    title. *)
Theorem render_change_message_quiz_spec
    (json_dumps : any → string) (str_dict : gmap string value → string)
    (added removed : list string)
    (changed : list (string * list (nat * field_diffs))) (course_id : string) :
  let text :=
    render_change_message_quiz json_dumps str_dict added removed changed course_id in
  let blocks :=
    added_block added ++ removed_block removed
      ++ changed_block json_dumps str_dict changed in
  (text = "" ↔ added = [] ∧ removed = [] ∧ changed = []) ∧
  (text ≠ "" → text = header course_id +:+ nl +:+ String.concat nl blocks) ∧
  header course_id =
    "@everyone 📣 Canvas changes detected for course `" +:+ course_id
      +:+ "` (quiz_assignment_overrides)" ∧
  (added_block added = [] ↔ added = []) ∧
  (removed_block removed = [] ↔ removed = []) ∧
  (changed_block json_dumps str_dict changed = [] ↔ changed = []) ∧
  (added ≠ [] → ∃ ids,
      added_block added = ["**➕ Quizzes added (new overrides):** " +:+ ids]) ∧
  (removed ≠ [] → ∃ ids,
      removed_block removed = ["**➖ Quizzes removed (overrides gone):** " +:+ ids]) ∧
  (changed ≠ [] → ∃ quizzes,
      changed_block json_dumps str_dict changed = "**✏️ Overrides changed:**" :: quizzes).
Proof.
  intros text blocks.
  assert (Htext : text = match blocks with
                         | [] => ""
                         | _ => header course_id +:+ nl +:+ String.concat nl blocks
                         end).
  { subst text blocks. unfold render_change_message_quiz. simpl.
    by rewrite <-(assoc_L (++)). }
  assert (Hblocks : blocks = [] ↔ added = [] ∧ removed = [] ∧ changed = []).
  { subst blocks. rewrite !app_nil.
    by rewrite added_block_nil, removed_block_nil, changed_block_nil. }
  split_and!.
  - rewrite <-Hblocks, Htext. destruct blocks; [done|]. split; [|done].
    intros Hnil. by apply string_app_nonempty in Hnil; [|apply header_nonempty].
  - rewrite Htext. by destruct blocks.
  - done.
  - apply added_block_nil.
  - apply removed_block_nil.
  - apply changed_block_nil.
  - destruct added; [done|]. intros _. by eexists.
  - destruct removed; [done|]. intros _. by eexists.
  - destruct changed; [done|]. intros _. by eexists.
Qed.

(** *** Stable sorting *)

Section stable_sort_facts.
Context {A K : Type} (lt : K → K → bool) (key : A → K).
Hypothesis lt_asym : ∀ a b, lt a b = true → lt b a = false.
Hypothesis ge_trans : ∀ a b c, lt b a = false → lt c b = false → lt c a = false.

Lemma insert_by_perm (x : A) (l : list A) : insert_by lt key x l ≡ₚ x :: l.
Proof.
  induction l as [|y l IH]; simpl; [done|].
  destruct (lt (key y) (key x)); [|done].
  rewrite IH. apply Permutation_swap.
Qed.

Lemma sort_by_perm (l : list A) : sort_by lt key l ≡ₚ l.
Proof.
  induction l as [|x l IH]; simpl; [done|].
  by rewrite insert_by_perm, IH.
Qed.

Lemma insert_by_sorted (x : A) (l : list A) :
  StronglySorted (may_precede lt key) l →
  StronglySorted (may_precede lt key) (insert_by lt key x l).
Proof.
  induction l as [|y l IH]; simpl; intros Hl.
  - repeat constructor.
  - apply StronglySorted_cons in Hl as [Hy Hl].
    destruct (lt (key y) (key x)) eqn:Hyx.
    + apply StronglySorted_cons. split; [|by apply IH].
      rewrite insert_by_perm. constructor; [|done].
      by apply lt_asym.
    + apply StronglySorted_cons. split.
      * constructor; [done|].
        eapply Forall_impl; [exact Hy|]. intros z Hz.
        unfold may_precede in *. by eapply ge_trans.
      * by apply StronglySorted_cons.
Qed.

Lemma sort_by_sorted (l : list A) :
  StronglySorted (may_precede lt key) (sort_by lt key l).
Proof.
  induction l as [|x l IH]; simpl; [constructor|]. by apply insert_by_sorted.
Qed.

(** The sort is stable: elements with the same key keep their order. *)
Lemma insert_by_stable `{EqDecision K} (k : K) (x : A) (l : list A) :
  filter (λ y, key y = k) (insert_by lt key x l) = filter (λ y, key y = k) (x :: l).
Proof.
  induction l as [|y l IH]; simpl; [done|].
  destruct (lt (key y) (key x)) eqn:Hyx; [|done].
  rewrite filter_cons, IH, !filter_cons.
  destruct (decide (key y = k)) as [Hy|Hy], (decide (key x = k)) as [Hx|Hx]; try done.
  rewrite Hy, Hx in Hyx. by rewrite (lt_asym k k Hyx) in Hyx.
Qed.

Lemma sort_by_stable `{EqDecision K} (k : K) (l : list A) :
  filter (λ y, key y = k) (sort_by lt key l) = filter (λ y, key y = k) l.
Proof.
  induction l as [|x l IH]; simpl; [done|].
  by rewrite insert_by_stable, !filter_cons, IH.
Qed.
End stable_sort_facts.

Lemma StronglySorted_lookup {A} (R : relation A) (l : list A) (i j : nat) (x y : A) :
  StronglySorted R l → (i < j)%nat → l !! i = Some x → l !! j = Some y → R x y.
Proof.
  intros Hl. revert i j. induction Hl as [|z l Hl IH Hz]; intros i j Hij Hi Hj.
  - done.
  - destruct j as [|j]; [lia|]. destruct i as [|i]; simpl in *.
    + simplify_eq. eapply Forall_forall; [exact Hz|]. by eapply list_elem_of_lookup_2.
    + eapply IH; [|done..]. lia.
Qed.

Lemma StronglySorted_impl {A} (R1 R2 : relation A) (l : list A) :
  (∀ x y, R1 x y → R2 x y) → StronglySorted R1 l → StronglySorted R2 l.
Proof.
  intros HR. induction 1 as [|x l Hl IH Hx]; constructor; [done|].
  eapply Forall_impl; [exact Hx|]. auto.
Qed.

(** *** Comparisons *)

Lemma compare_ok_refl {A} (c : A → A → comparison) (x : A) : compare_ok c → c x x = Eq.
Proof. intros [Ha _ _]. specialize (Ha x x). by destruct (c x x). Qed.

Lemma pair_compare_ok {A B} (cA : A → A → comparison) (cB : B → B → comparison) :
  compare_ok cA → compare_ok cB → compare_ok (pair_compare cA cB).
Proof.
  intros HA HB. split; unfold pair_compare.
  - intros [x1 x2] [y1 y2]; simpl.
    rewrite (cmp_antisym cA HA x1 y1), (cmp_antisym cB HB x2 y2).
    by destruct (cA y1 x1), (cB y2 x2).
  - intros [x1 x2] [y1 y2]; simpl.
    destruct (cA x1 y1) eqn:H1; simpl; [|done..]. intros H2.
    f_equal; [by apply (cmp_eq cA HA)|by apply (cmp_eq cB HB)].
  - intros [x1 x2] [y1 y2] [z1 z2]; simpl.
    destruct (cA x1 y1) eqn:H1; simpl; [| |done].
    + apply (cmp_eq cA HA) in H1 as ->.
      destruct (cA y1 z1) eqn:H2; simpl; [|done..].
      intros. by eapply (cmp_lt_trans cB HB).
    + intros _. destruct (cA y1 z1) eqn:H2; simpl; [| |done].
      * apply (cmp_eq cA HA) in H2 as <-. by rewrite H1.
      * by rewrite (cmp_lt_trans cA HA _ _ _ H1 H2).
Qed.

Lemma string_compare_ok : compare_ok String.compare.
Proof.
  split.
  - apply String.compare_antisym.
  - apply String.compare_eq_iff.
  - intros x y z Hxy Hyz.
    assert (Hle : String.le x z).
    { trans y; unfold String.le, String.leb; [by rewrite Hxy|by rewrite Hyz]. }
    unfold String.le, String.leb in Hle.
    destruct (String.compare x z) eqn:Hxz; [|done..].
    apply String.compare_eq_iff in Hxz as ->.
    rewrite String.compare_antisym, Hyz in Hxy. done.
Qed.

Lemma Z_compare_ok : compare_ok Z.compare.
Proof.
  split.
  - intros x y. apply Z.compare_antisym.
  - apply Z.compare_eq.
  - intros x y z. rewrite !Z.compare_lt_iff. lia.
Qed.

Lemma sort_key_compare_ok : compare_ok sort_key_compare.
Proof.
  unfold sort_key_compare.
  repeat apply pair_compare_ok; auto using string_compare_ok, Z_compare_ok.
Qed.

Lemma sort_key_lt_asym (a b : sort_key) : sort_key_lt a b = true → sort_key_lt b a = false.
Proof.
  unfold sort_key_lt. rewrite (cmp_antisym _ sort_key_compare_ok b a).
  by destruct (sort_key_compare a b).
Qed.

Lemma sort_key_ge_trans (a b c : sort_key) :
  sort_key_lt b a = false → sort_key_lt c b = false → sort_key_lt c a = false.
Proof.
  unfold sort_key_lt. intros Hba Hcb.
  destruct (sort_key_compare c a) eqn:Hca; [done| |done].
  destruct (sort_key_compare b a) eqn:Hba'; [| done |].
  - apply (cmp_eq _ sort_key_compare_ok) in Hba' as ->. by rewrite Hca in Hcb.
  - rewrite (cmp_antisym _ sort_key_compare_ok) in Hba'.
    destruct (sort_key_compare a b) eqn:Hab; try done.
    by rewrite (cmp_lt_trans _ sort_key_compare_ok _ _ _ Hca Hab) in Hcb.
Qed.

Lemma may_precede_key_le (x y : gmap string value) :
  may_precede sort_key_lt sort_key_due x y ↔ key_le x y.
Proof.
  unfold may_precede, key_le, sort_key_lt.
  rewrite (cmp_antisym _ sort_key_compare_ok (sort_key_due y)).
  by destruct (sort_key_compare (sort_key_due x) (sort_key_due y)).
Qed.

(** *** The canonical indexer *)

Lemma norm_list_perm (it : item) :
  norm_list it ≡ₚ normalize_due_entry <$> due_dates_or_empty (item_due_dates it).
Proof. apply sort_by_perm. Qed.

Lemma norm_list_sorted (it : item) : sorted_group (norm_list it).
Proof.
  unfold sorted_group, norm_list.
  eapply StronglySorted_impl; [|apply sort_by_sorted].
  - intros x y. apply may_precede_key_le.
  - apply sort_key_lt_asym.
  - apply sort_key_ge_trans.
Qed.

Lemma index_step_item_key (out : gmap string (list (gmap string value))) (it : item) :
  index_step out it =
    match item_key it with
    | Some k => <[k := norm_list it]> out
    | None => out
    end.
Proof. unfold index_step, item_key. by destruct (default VNone (item_quiz_id it)). Qed.

Lemma index_fold_lookup (l : list item) (out : gmap string (list (gmap string value)))
    (k : string) :
  foldl index_step out l !! k =
    match last (filter (λ it, item_key it = Some k) l) with
    | Some it => Some (norm_list it)
    | None => out !! k
    end.
Proof.
  revert out. induction l as [|it l IH]; intros out; simpl; [done|].
  rewrite IH, index_step_item_key, filter_cons.
  case_decide as Hk.
  - rewrite last_cons, Hk, lookup_insert_eq.
    by destruct (last (filter _ l)).
  - destruct (last (filter _ l)); [done|].
    destruct (item_key it) as [k'|]; [|done].
    rewrite lookup_insert_ne; [done|congruence].
Qed.

Lemma index_lookup (data : payload) (k : string) :
  normalize_payload_to_index data !! k =
    norm_list <$> last (filter (λ it, item_key it = Some k)
                               (default [] (payload_overrides data))).
Proof.
  unfold normalize_payload_to_index. rewrite index_fold_lookup.
  by destruct (last _).
Qed.

Lemma sort_key_due_unfold (e : gmap string value) :
  sort_key_due e =
    (title_key e, if is_base e then 1%Z else 0%Z,
     py_str (py_or (dict_get e "due_at") (VStr "")),
     py_str (py_or (dict_get e "unlock_at") (VStr "")),
     py_str (py_or (dict_get e "lock_at") (VStr ""))).
Proof. reflexivity. Qed.

Lemma key_le_same_title (x y : gmap string value) :
  key_le x y → title_key x = title_key y → is_base x = true → is_base y = true.
Proof.
  unfold key_le. rewrite !sort_key_due_unfold.
  unfold sort_key_compare, pair_compare. cbn [fst snd].
  intros Hle Ht Hb. rewrite Ht, Hb, (compare_ok_refl _ _ string_compare_ok) in Hle.
  destruct (is_base y); [done|]. by cbn in Hle.
Qed.

Lemma index_entries_normalized (data : payload) (k : string)
    (g : list (gmap string value)) (e : gmap string value) :
  normalize_payload_to_index data !! k = Some g → e ∈ g →
  dom e = list_to_set DUE_KEYS ∧ e !! ENTRY = None.
Proof.
  rewrite index_lookup. intros Hg He.
  destruct (last _) as [it|]; simplify_eq/=.
  rewrite norm_list_perm in He. apply list_elem_of_fmap in He as (raw & -> & _).
  split; [apply normalize_due_entry_dom|by rewrite normalize_due_entry_lookup].
Qed.

(** A payload whose quiz ids are integers gives a snapshot whose
    identifiers are string forms of integers. *)
Lemma index_integer_ids_canonical (data : payload) :
  Forall (λ it, ∀ qid, item_quiz_id it = Some qid → qid = VNone ∨ ∃ n, qid = VInt n)
         (default [] (payload_overrides data)) →
  canonical_ids (normalize_payload_to_index data).
Proof.
  intros Hall k [g Hg]%elem_of_dom. rewrite index_lookup in Hg.
  destruct (last _) as [it|] eqn:Hlast; [|done].
  apply last_Some_elem_of, list_elem_of_filter in Hlast as [Hk Hit].
  rewrite Forall_forall in Hall. specialize (Hall it Hit).
  unfold item_key in Hk. destruct (item_quiz_id it) as [qid|]; [|done].
  destruct (Hall qid eq_refl) as [->|[n ->]]; [done|]. simpl in Hk.
  exists n. congruence.
Qed.

(** C3, as the code has it.  Every group of the snapshot built by
    [normalize_payload_to_index] is sorted by the key of [sort_key_due]:
    title first, then the is-base flag ascending (with the same title, no
    base entry stands before a non-base entry), then the due, unlock and
    lock timestamps as strings. *)
Theorem index_groups_sorted (data : payload) (k : string) (g : list (gmap string value)) :
  normalize_payload_to_index data !! k = Some g →
  sorted_group g ∧
  (∀ i j x y, (i < j)%nat → g !! i = Some x → g !! j = Some y →
     title_key x = title_key y → is_base x = true → is_base y = true).
Proof.
  rewrite index_lookup. intros Hg.
  destruct (last _) as [it|]; simplify_eq/=.
  pose proof (norm_list_sorted it) as Hs. split; [done|].
  intros i j x y Hij Hi Hj. apply key_le_same_title.
  by eapply (StronglySorted_lookup _ _ i j).
Qed.

Lemma index_groups_sorted_witness :
  sorted_group [normalize_due_entry ex_nonbase; normalize_due_entry ex_base].
Proof.
  apply (index_groups_sorted ex_payload_base_first "1").
  vm_compute. reflexivity.
Defined.

(** C3 as the specification words it fails: with the is-base flag
    descending, the group built from a base and a non-base entry of the
    same title is not sorted. *)
Lemma index_group_not_base_first :
  normalize_payload_to_index ex_payload_base_first !! "1"
    = Some [normalize_due_entry ex_nonbase; normalize_due_entry ex_base] ∧
  ¬ claimed_sorted_group [normalize_due_entry ex_nonbase; normalize_due_entry ex_base].
Proof.
  split; [by vm_compute|].
  intros Hs. apply StronglySorted_cons in Hs as [Hs _].
  apply Forall_cons in Hs as [Hs _]. apply Hs. by vm_compute.
Qed.

(** C8, as the code has it.  No item is an error.  An item without a quiz
    id (absent or null) leaves no key; the keys of the snapshot are the
    string forms of the ids of the other items, whether the id is an
    integer, a boolean or a string; and a key is mapped to the due entries,
    normalized and sorted, of the last item of the payload that has this
    string form. *)
Theorem normalize_payload_to_index_spec (data : payload) :
  let arr := default [] (payload_overrides data) in
  let out := normalize_payload_to_index data in
  (∀ it, item_key it = None ↔
         item_quiz_id it = None ∨ item_quiz_id it = Some VNone) ∧
  (∀ it qid, item_quiz_id it = Some qid → qid ≠ VNone →
         item_key it = Some (py_str qid)) ∧
  (∀ k, k ∈ dom out ↔ ∃ it, it ∈ arr ∧ item_key it = Some k) ∧
  (∀ before it after k,
      arr = before ++ it :: after → item_key it = Some k →
      (∀ it', it' ∈ after → item_key it' ≠ Some k) →
      out !! k = Some (norm_list it)) ∧
  (∀ it, norm_list it ≡ₚ normalize_due_entry <$> due_dates_or_empty (item_due_dates it) ∧
         sorted_group (norm_list it)).
Proof.
  intros arr out. split_and!.
  - intros [[[]|] dd]; unfold item_key; simpl;
      (split; [done || by auto|]); by intros [|].
  - intros [[[]|] dd] qid; unfold item_key; simpl; intros; by simplify_eq.
  - intros k. subst out. rewrite elem_of_dom, index_lookup. fold arr.
    split.
    + intros [g Hg]. destruct (last _) as [it|] eqn:Hlast; [|done].
      apply last_Some_elem_of, list_elem_of_filter in Hlast as [? ?]. by exists it.
    + intros (it & Hit & Hk).
      assert (Hin : it ∈ filter (λ it, item_key it = Some k) arr)
        by by apply list_elem_of_filter.
      destruct (last _) as [it'|] eqn:Hlast; [by eexists|].
      apply last_None in Hlast. rewrite Hlast in Hin. by apply elem_of_nil in Hin.
  - intros before it after k Harr Hk Hafter. subst out.
    rewrite index_lookup. fold arr. rewrite Harr, filter_app, filter_cons_True by done.
    assert (filter (λ it, item_key it = Some k) after = []) as ->.
    { clear Harr. induction after as [|it' after IH]; [done|].
      rewrite filter_cons_False by (apply Hafter; left).
      apply IH. intros. apply Hafter. by right. }
    by rewrite last_snoc.
  - intros it. split; [apply norm_list_perm|apply norm_list_sorted].
Qed.

(** C8 as stated fails when two items have the same quiz id: the key is
    mapped to the due entries of the second item, not to those of the
    first. *)
Lemma index_duplicate_id_last_wins :
  ex_item_first ∈ default [] (payload_overrides ex_payload_duplicate) ∧
  item_quiz_id ex_item_first = Some (VInt 1) ∧
  normalize_payload_to_index ex_payload_duplicate !! py_str (VInt 1)
    ≠ Some (norm_list ex_item_first).
Proof. split_and!; [by left|done|by vm_compute]. Qed.

(** *** Sets and their iteration *)

Section set_order_facts.
Context `{SetOrder}.

Lemma elem_of_set_iter (X : gset string) (x : string) : x ∈ set_iter X ↔ x ∈ X.
Proof. by rewrite set_iter_perm, elem_of_elements. Qed.

Lemma NoDup_set_iter (X : gset string) : NoDup (set_iter X).
Proof. rewrite set_iter_perm. apply NoDup_elements. Qed.

Lemma set_iter_empty : set_iter ∅ = [].
Proof. apply Permutation_nil_r. by rewrite set_iter_perm, elements_empty. Qed.
End set_order_facts.

(** *** Sorting identifiers *)

Lemma int_Some (s : string) (n : Z) : py_int s = Some n → int s = Ok n.
Proof. unfold int. by intros ->. Qed.

Lemma int_None (s : string) : py_int s = None → int s = Raise ValueError.
Proof. unfold int. by intros ->. Qed.

Lemma int_keys_ok (l : list string) :
  Forall (λ s, is_Some (py_int s)) l →
  ∃ ks, int_keys l = Ok ks ∧ ks.*2 = l ∧ Forall (λ p, py_int p.2 = Some p.1) ks.
Proof.
  induction 1 as [|s l [n Hn] _ (ks & Hks & Hsnd & Hall)]; simpl.
  - by exists [].
  - exists ((n, s) :: ks). rewrite (int_Some _ _ Hn), Hks; simpl.
    split_and!; [done|by f_equal|by constructor].
Qed.

Lemma int_keys_result (l : list string) :
  (∃ ks, int_keys l = Ok ks) ∨ int_keys l = Raise ValueError.
Proof.
  induction l as [|s l [[ks Hks]| Hr]]; simpl; [left; by eexists|..];
    unfold int; destruct (py_int s); simpl; rewrite ?Hks, ?Hr; simpl; eauto.
Qed.

Lemma int_keys_raise (l : list string) (s : string) :
  s ∈ l → py_int s = None → int_keys l = Raise ValueError.
Proof.
  induction 1 as [s l|s s' l _ IH]; simpl; intros Hs.
  - by rewrite (int_None _ Hs).
  - rewrite (IH Hs). unfold int. by destruct (py_int s').
Qed.

Lemma Z_ltb_asym (a b : Z) : (a <? b)%Z = true → (b <? a)%Z = false.
Proof. lia. Qed.

Lemma Z_geb_trans (a b c : Z) : (b <? a)%Z = false → (c <? b)%Z = false → (c <? a)%Z = false.
Proof. lia. Qed.

Lemma StronglySorted_Forall {A} (R : relation A) (P : A → Prop) (l : list A) :
  StronglySorted R l → Forall P l → StronglySorted (λ x y, P x ∧ P y ∧ R x y) l.
Proof.
  induction 1 as [|x l Hl IH Hx]; intros HP; [constructor|].
  apply Forall_cons in HP as [Hpx HP]. constructor; [by apply IH|].
  rewrite Forall_forall in Hx, HP |- *. auto.
Qed.

Lemma sorted_key_int_ok (l : list string) :
  Forall (λ s, is_Some (py_int s)) l →
  ∃ r, sorted_key_int l = Ok r ∧ r ≡ₚ l ∧ StronglySorted int_le r.
Proof.
  intros (ks & Hks & Hsnd & Hall)%int_keys_ok.
  exists ((sort_by Z.ltb fst ks).*2). unfold sorted_key_int. rewrite Hks; simpl.
  split; [done|]. split.
  { subst l. apply fmap_Permutation, sort_by_perm. }
  assert (Hs : StronglySorted
                 (λ p q : Z * string,
                    py_int p.2 = Some p.1 ∧ py_int q.2 = Some q.1 ∧
                    may_precede Z.ltb fst p q)
                 (sort_by Z.ltb fst ks)).
  { apply (StronglySorted_Forall _ (λ p : Z * string, py_int p.2 = Some p.1)).
    - apply sort_by_sorted; [apply Z_ltb_asym|apply Z_geb_trans].
    - by rewrite sort_by_perm. }
  eapply StronglySorted_fmap; [|exact Hs].
  intros [m x] [n y] (Hx & Hy & Hle); simpl in *.
  unfold int_le, may_precede in *. rewrite Hx, Hy. simpl in Hle. lia.
Qed.

Lemma sorted_key_int_result (l : list string) :
  (∃ r, sorted_key_int l = Ok r) ∨ sorted_key_int l = Raise ValueError.
Proof.
  unfold sorted_key_int. destruct (int_keys_result l) as [[ks ->]| ->]; simpl; eauto.
Qed.

Lemma sorted_key_int_raise (l : list string) (s : string) :
  s ∈ l → py_int s = None → sorted_key_int l = Raise ValueError.
Proof. intros Hs Hn. unfold sorted_key_int. by rewrite (int_keys_raise l s). Qed.

(** *** Identifiers that are the string form of an integer *)

Lemma of_uint_acc_val d acc : Zpos (Pos.of_uint_acc d acc) = uint_val (Zpos acc) d.
Proof.
  revert acc. induction d; intros acc; simpl; rewrite ?IHd; try done; f_equal; lia.
Qed.

Lemma of_uint_val d : Z.of_N (Pos.of_uint d) = uint_val 0 d.
Proof.
  induction d; simpl; try done; rewrite of_uint_acc_val; done.
Qed.

Lemma uint_val_to_uint p : uint_val 0 (Pos.to_uint p) = Zpos p.
Proof. by rewrite <-of_uint_val, DecimalPos.Unsigned.of_to. Qed.

Lemma parse_digits_uint d acc :
  parse_digits acc true (list_ascii_of_string (NilEmpty.string_of_uint d)) = Some (uint_val acc d).
Proof. revert acc. induction d; intros acc; simpl; try done; apply IHd. Qed.

Lemma parse_digits_uint_first d acc :
  d ≠ Decimal.Nil →
  parse_digits acc false (list_ascii_of_string (NilEmpty.string_of_uint d)) = Some (uint_val acc d).
Proof. destruct d; intros Hd; simpl; try done; apply parse_digits_uint. Qed.

Lemma lstrip_no_space l : Forall (λ c, is_space c = false) l → lstrip l = l.
Proof. destruct 1 as [|c l Hc]; simpl; [done|]. by rewrite Hc. Qed.

Lemma strip_no_space l : Forall (λ c, is_space c = false) l → strip l = l.
Proof.
  intros Hl. unfold strip. rewrite (lstrip_no_space l Hl), lstrip_no_space, rev_involutive; [done|].
  apply Forall_forall. intros c Hc. rewrite list_elem_of_In, <-in_rev, <-list_elem_of_In in Hc.
  by eapply Forall_forall in Hl.
Qed.

Lemma uint_no_space d :
  Forall (λ c, is_space c = false) (list_ascii_of_string (NilEmpty.string_of_uint d)).
Proof. induction d; simpl; by constructor. Qed.

Lemma to_uint_not_nil p : Pos.to_uint p ≠ Decimal.Nil.
Proof.
  intros Hnil. pose proof (DecimalPos.Unsigned.of_to p) as Hp. by rewrite Hnil in Hp.
Qed.

Lemma parse_signed_uint d :
  d ≠ Decimal.Nil →
  parse_signed (list_ascii_of_string (NilEmpty.string_of_uint d)) = Some (uint_val 0 d).
Proof. destruct d; intros Hd; simpl; try done; apply parse_digits_uint. Qed.

Lemma py_int_str_int n : py_int (str_int n) = Some n.
Proof.
  unfold py_int, str_int. destruct n as [|p|p]; [done|..]; simpl.
  - assert (NilZero.string_of_uint (Pos.to_uint p) = NilEmpty.string_of_uint (Pos.to_uint p)) as ->.
    { unfold NilZero.string_of_uint. destruct (Pos.to_uint p) eqn:Hp; try done.
      by apply to_uint_not_nil in Hp. }
    rewrite strip_no_space by apply uint_no_space.
    rewrite parse_signed_uint by apply to_uint_not_nil. by rewrite uint_val_to_uint.
  - assert (NilZero.string_of_uint (Pos.to_uint p) = NilEmpty.string_of_uint (Pos.to_uint p)) as ->.
    { unfold NilZero.string_of_uint. destruct (Pos.to_uint p) eqn:Hp; try done.
      by apply to_uint_not_nil in Hp. }
    rewrite strip_no_space by (constructor; [done|apply uint_no_space]).
    simpl. rewrite parse_digits_uint_first by apply to_uint_not_nil.
    simpl. by rewrite uint_val_to_uint.
Qed.

Lemma canonical_ids_parse (s : gmap string (list (gmap string value))) :
  canonical_ids s → ids_parse s.
Proof. intros Hs k [n ->]%Hs. exists n. apply py_int_str_int. Qed.

(** *** Equality of values and of entries *)

Lemma py_eq_refl (v : value) : py_eq v v = true.
Proof.
  destruct v as [|[]|n|s]; simpl; try done.
  - apply Z.eqb_refl.
  - apply String.eqb_refl.
Qed.

Lemma dict_eq_lookup (d1 d2 : gmap string value) :
  dict_eq d1 d2 = true ↔
    size d1 = size d2 ∧
    ∀ k v, d1 !! k = Some v → ∃ w, d2 !! k = Some w ∧ py_eq v w = true.
Proof.
  unfold dict_eq. rewrite andb_true_iff, bool_decide_eq_true, forallb_forall.
  apply and_iff_compat_l. split.
  - intros Hall k v Hk.
    specialize (Hall (k, v)). rewrite <-list_elem_of_In, elem_of_map_to_list in Hall.
    specialize (Hall Hk). simpl in Hall. destruct (d2 !! k) as [w|]; [|done]. by exists w.
  - intros Hall [k v]. rewrite <-list_elem_of_In, elem_of_map_to_list. intros Hk.
    simpl. by destruct (Hall k v Hk) as (w & -> & Hw).
Qed.

Lemma dict_eq_refl (d : gmap string value) : dict_eq d d = true.
Proof.
  apply dict_eq_lookup. split; [done|]. intros k v Hk. exists v. by rewrite py_eq_refl.
Qed.

Lemma dict_eq_dom (d1 d2 : gmap string value) : dict_eq d1 d2 = true → dom d1 = dom d2.
Proof.
  intros [Hsize Hall]%dict_eq_lookup. apply set_subseteq_size_eq.
  - intros k [v Hk]%elem_of_dom. destruct (Hall k v Hk) as (w & Hw & _).
    apply elem_of_dom. by eexists.
  - by rewrite !size_dom, Hsize.
Qed.

Lemma dict_eq_get (d1 d2 : gmap string value) (k : string) :
  dict_eq d1 d2 = true → py_eq (dict_get d1 k) (dict_get d2 k) = true.
Proof.
  intros Heq. pose proof (dict_eq_dom _ _ Heq) as Hdom.
  apply dict_eq_lookup in Heq as [_ Hall]. unfold dict_get.
  destruct (d1 !! k) as [v|] eqn:Hk.
  - by destruct (Hall k v Hk) as (w & -> & Hw).
  - apply not_elem_of_dom in Hk. rewrite Hdom in Hk.
    apply not_elem_of_dom in Hk. by rewrite Hk.
Qed.

(** *** The fields recorded for two entries *)

Lemma dict_set_fresh {V} (d : list (string * V)) (k : string) (v : V) :
  k ∉ d.*1 → dict_set d k v = d ++ [(k, v)].
Proof.
  induction d as [|[k' v'] d IH]; simpl; [done|].
  rewrite not_elem_of_cons. intros [Hne Hk].
  destruct (String.eqb_spec k' k); [done|]. by rewrite IH.
Qed.

Lemma fields_fold (left right : gmap string value) (ks : list string) (fd : field_diffs) :
  NoDup ks → (∀ k, k ∈ ks → k ∉ fd.*1) →
  foldl (fields_step left right) fd ks
    = fd ++ (field_pair left right <$> filter (differs left right) ks).
Proof.
  revert fd. induction ks as [|k ks IH]; intros fd Hnd Hfresh; simpl.
  - by rewrite app_nil_r.
  - apply NoDup_cons in Hnd as [Hk Hnd]. unfold fields_step at 2.
    rewrite filter_cons.
    destruct (decide (differs left right k)) as [Hd|Hd]; unfold differs in Hd.
    + rewrite Hd; simpl. rewrite dict_set_fresh by (apply Hfresh; by left).
      rewrite IH; [by rewrite <-(assoc_L (++))|done|].
      intros k' Hk'. rewrite fmap_app, elem_of_app. intros [Hin|Hin].
      * eapply Hfresh; [|done]. by right.
      * apply list_elem_of_singleton in Hin. by subst.
    + apply not_false_is_true in Hd. rewrite Hd; simpl.
      apply IH; [done|]. intros k' Hk'. apply Hfresh. by right.
Qed.

Section differ_facts.
Context `{SetOrder}.

Lemma changed_fields_filter (left right : gmap string value) :
  changed_fields left right
    = field_pair left right <$> filter (differs left right) (set_iter (dom left ∪ dom right)).
Proof.
  unfold changed_fields. rewrite fields_fold; [done|apply NoDup_set_iter|].
  intros k _. apply not_elem_of_nil.
Qed.

Lemma differs_in_union (left right : gmap string value) (k : string) :
  differs left right k → k ∈ dom left ∪ dom right.
Proof.
  unfold differs, dict_get. intros Hd.
  destruct (left !! k) eqn:Hl; [apply elem_of_union_l, elem_of_dom; by eexists|].
  destruct (right !! k) eqn:Hr; [apply elem_of_union_r, elem_of_dom; by eexists|].
  done.
Qed.

Lemma elem_of_changed_fields (left right : gmap string value) (k : string) (ov nv : any) :
  (k, (ov, nv)) ∈ changed_fields left right ↔
    k ∈ dom left ∪ dom right ∧ differs left right k ∧
    ov = AVal (dict_get left k) ∧ nv = AVal (dict_get right k).
Proof.
  rewrite changed_fields_filter, list_elem_of_fmap. unfold field_pair. split.
  - intros (k' & Heq & Hin). simplify_eq.
    apply list_elem_of_filter in Hin as [Hd Hin]. by apply elem_of_set_iter in Hin.
  - intros (Hin & Hd & -> & ->). exists k. split; [done|].
    apply list_elem_of_filter. split; [done|]. by apply elem_of_set_iter.
Qed.

Lemma changed_fields_keys (left right : gmap string value) :
  (changed_fields left right).*1 = filter (differs left right) (set_iter (dom left ∪ dom right)).
Proof.
  rewrite changed_fields_filter, <-list_fmap_compose.
  unfold field_pair, compose; simpl. apply list_fmap_id.
Qed.

Lemma changed_fields_NoDup (left right : gmap string value) :
  NoDup (changed_fields left right).*1.
Proof. rewrite changed_fields_keys. apply NoDup_filter, NoDup_set_iter. Qed.
End differ_facts.

(** *** The element-wise comparison of two groups *)

Lemma StronglySorted_seq (j n : nat) : StronglySorted lt (seq j n).
Proof.
  revert j. induction n as [|n IH]; intros j; simpl; constructor; [done|].
  apply Forall_forall. intros k Hk%elem_of_seq. lia.
Qed.

Lemma StronglySorted_omap_index {B} (f : nat → option (nat * B)) (l : list nat) :
  (∀ i p, f i = Some p → p.1 = i) →
  StronglySorted lt l → StronglySorted lt (omap f l).*1.
Proof.
  intros Hf. induction 1 as [|i l Hl IH Hi]; simpl; [constructor|].
  destruct (f i) as [p|] eqn:Hp; [|done]. rewrite fmap_cons.
  constructor; [done|]. rewrite (Hf _ _ Hp).
  apply Forall_forall. intros j (q & -> & (k & Hk & Hq)%list_elem_of_omap)%list_elem_of_fmap.
  rewrite (Hf _ _ Hq). by eapply Forall_forall in Hi.
Qed.

Lemma StronglySorted_lt_NoDup (l : list nat) : StronglySorted lt l → NoDup l.
Proof.
  induction 1 as [|i l Hl IH Hi]; constructor; [|done].
  intros Hin. eapply Forall_forall in Hi; [|done]. lia.
Qed.

Section list_diff_facts.
Context `{SetOrder}.

Lemma list_diff_step_position (a b : list (gmap string value))
    (diffs : list (nat * field_diffs)) (i : nat) :
  list_diff_step a b diffs i = diffs ++ option_list (position_entry a b i).
Proof.
  unfold list_diff_step, position_entry, position_diff.
  destruct (a !! i) as [l|], (b !! i) as [r|]; simpl; try done.
  - destruct (dict_eq l r); simpl; [by rewrite app_nil_r|].
    destruct (changed_fields l r); simpl; [by rewrite app_nil_r|done].
  - by rewrite app_nil_r.
Qed.

Lemma list_diff_fold (a b : list (gmap string value))
    (diffs : list (nat * field_diffs)) (l : list nat) :
  foldl (list_diff_step a b) diffs l = diffs ++ omap (position_entry a b) l.
Proof.
  revert diffs. induction l as [|i l IH]; intros diffs; simpl.
  - by rewrite app_nil_r.
  - rewrite IH, list_diff_step_position, <-(assoc_L (++)).
    by destruct (position_entry a b i).
Qed.

Lemma list_diff_omap (a b : list (gmap string value)) :
  list_diff a b = omap (position_entry a b) (seq 0 (max (length a) (length b))).
Proof. unfold list_diff. by rewrite list_diff_fold. Qed.

Lemma position_diff_lt (a b : list (gmap string value)) (i : nat) :
  position_diff a b i ≠ [] → (i < max (length a) (length b))%nat.
Proof.
  unfold position_diff. intros Hne.
  destruct (a !! i) as [l|] eqn:Ha; [apply lookup_lt_Some in Ha; lia|].
  destruct (b !! i) as [r|] eqn:Hb; [apply lookup_lt_Some in Hb; lia|].
  done.
Qed.

Lemma position_entry_Some (a b : list (gmap string value)) (i : nat) (p : nat * field_diffs) :
  position_entry a b i = Some p ↔ p.1 = i ∧ p.2 = position_diff a b i ∧ p.2 ≠ [].
Proof.
  unfold position_entry. destruct p as [j fd]; simpl.
  destruct (position_diff a b i) as [|f fd'] eqn:Hpd; split.
  - done.
  - by intros (_ & -> & ?).
  - intros ?; by simplify_eq.
  - by intros (-> & -> & _).
Qed.

Lemma elem_of_list_diff (a b : list (gmap string value)) (i : nat) (fd : field_diffs) :
  (i, fd) ∈ list_diff a b ↔ fd = position_diff a b i ∧ fd ≠ [].
Proof.
  rewrite list_diff_omap, list_elem_of_omap. split.
  - intros (j & _ & (? & ? & ?)%position_entry_Some); by simplify_eq/=.
  - intros [-> Hne]. exists i. split.
    + apply elem_of_seq. apply position_diff_lt in Hne. lia.
    + by apply position_entry_Some.
Qed.

Lemma list_diff_indices_sorted (a b : list (gmap string value)) :
  StronglySorted lt (list_diff a b).*1.
Proof.
  rewrite list_diff_omap. apply StronglySorted_omap_index; [|apply StronglySorted_seq].
  by intros i p (? & _)%position_entry_Some.
Qed.

Lemma list_diff_nil (a b : list (gmap string value)) :
  list_diff a b = [] ↔ ∀ i, position_diff a b i = [].
Proof.
  split.
  - intros Hnil i. destruct (position_diff a b i) as [|f fd] eqn:Hpd; [done|].
    assert (Hin : (i, f :: fd) ∈ list_diff a b) by (apply elem_of_list_diff; by rewrite Hpd).
    rewrite Hnil in Hin. by apply elem_of_nil in Hin.
  - intros Hall. destruct (list_diff a b) as [|[i fd] l] eqn:Hd; [done|].
    assert (Hin : (i, fd) ∈ list_diff a b) by (rewrite Hd; left).
    apply elem_of_list_diff in Hin as [-> Hne]. by rewrite Hall in Hne.
Qed.

Lemma list_diff_same (a : list (gmap string value)) : list_diff a a = [].
Proof.
  apply list_diff_nil. intros i. unfold position_diff.
  destruct (a !! i) as [l|]; [|done]. by rewrite dict_eq_refl.
Qed.

(** *** The change-set *)

Lemma changed_loop_omap (old_idx new_idx : gmap string (list (gmap string value)))
    (qids : list string) :
  (∀ q, q ∈ qids → q ∈ dom old_idx ∩ dom new_idx) →
  changed_loop old_idx new_idx qids = Ok (omap (changed_of old_idx new_idx) qids).
Proof.
  induction qids as [|q qids IH]; intros Hin; simpl; [done|].
  assert (Hq : q ∈ dom old_idx ∩ dom new_idx) by (apply Hin; left).
  apply elem_of_intersection in Hq as [[a Ha]%elem_of_dom [b Hb]%elem_of_dom].
  unfold dict_getitem, changed_of. rewrite Ha, Hb; simpl.
  rewrite IH by (intros; apply Hin; by right); simpl.
  by destruct (list_diff a b).
Qed.
End list_diff_facts.

Section compute_changes_facts.
Context `{SetOrder}.

Lemma sorted_ids_ok (X : gset string) :
  (∀ k, k ∈ X → is_Some (py_int k)) →
  ∃ r, sorted_key_int (set_iter X) = Ok r ∧
       (∀ k, k ∈ r ↔ k ∈ X) ∧ NoDup r ∧ StronglySorted int_le r.
Proof.
  intros HX. destruct (sorted_key_int_ok (set_iter X)) as (r & Hr & Hperm & Hs).
  { apply Forall_forall. intros k Hk. by apply HX, elem_of_set_iter. }
  exists r. split_and!; [done| |by rewrite Hperm; apply NoDup_set_iter|done].
  intros k. by rewrite Hperm, elem_of_set_iter.
Qed.

Lemma sorted_ids_raise (X : gset string) (k : string) :
  k ∈ X → py_int k = None → sorted_key_int (set_iter X) = Raise ValueError.
Proof. intros Hk. apply sorted_key_int_raise. by apply elem_of_set_iter. Qed.

(** When the three sorts succeed, so does the whole function. *)
Lemma compute_changes_quiz_sorts (old_idx new_idx : gmap string (list (gmap string value)))
    (a r common : list string) :
  sorted_key_int (set_iter (dom new_idx ∖ dom old_idx)) = Ok a →
  sorted_key_int (set_iter (dom old_idx ∖ dom new_idx)) = Ok r →
  sorted_key_int (set_iter (dom old_idx ∩ dom new_idx)) = Ok common →
  (∀ q, q ∈ common → q ∈ dom old_idx ∩ dom new_idx) →
  compute_changes_quiz old_idx new_idx
    = Ok (a, r, omap (changed_of old_idx new_idx) common).
Proof.
  intros Ha Hr Hc Hin. unfold compute_changes_quiz.
  rewrite Ha, Hr, Hc; simpl. by rewrite changed_loop_omap.
Qed.

Lemma sorted_key_int_perm (l r : list string) :
  sorted_key_int l = Ok r → r ≡ₚ l.
Proof.
  unfold sorted_key_int. destruct (int_keys l) as [ks|] eqn:Hks; [|done].
  simpl. intros [= <-].
  assert (Hsnd : ks.*2 = l).
  { revert ks Hks. induction l as [|s l IH]; intros ks; simpl; [by intros [= <-]|].
    unfold int. destruct (py_int s); [|done]. simpl.
    destruct (int_keys l) as [ks'|]; [|done]. simpl. intros [= <-].
    rewrite fmap_cons. f_equal. by apply IH. }
  subst l. apply fmap_Permutation, sort_by_perm.
Qed.

Lemma compute_changes_quiz_ok (old_idx new_idx : gmap string (list (gmap string value))) :
  ids_parse old_idx → ids_parse new_idx →
  ∃ a r common,
    compute_changes_quiz old_idx new_idx
      = Ok (a, r, omap (changed_of old_idx new_idx) common) ∧
    ((∀ k, k ∈ a ↔ k ∈ dom new_idx ∖ dom old_idx) ∧ NoDup a ∧ StronglySorted int_le a) ∧
    ((∀ k, k ∈ r ↔ k ∈ dom old_idx ∖ dom new_idx) ∧ NoDup r ∧ StronglySorted int_le r) ∧
    ((∀ k, k ∈ common ↔ k ∈ dom old_idx ∩ dom new_idx) ∧ NoDup common ∧
     StronglySorted int_le common).
Proof.
  intros Hold Hnew.
  destruct (sorted_ids_ok (dom new_idx ∖ dom old_idx)) as (a & Ha & Ha').
  { intros k [Hk _]%elem_of_difference. by apply Hnew. }
  destruct (sorted_ids_ok (dom old_idx ∖ dom new_idx)) as (r & Hr & Hr').
  { intros k [Hk _]%elem_of_difference. by apply Hold. }
  destruct (sorted_ids_ok (dom old_idx ∩ dom new_idx)) as (c & Hc & Hc').
  { intros k [Hk _]%elem_of_intersection. by apply Hold. }
  exists a, r, c. split; [|done].
  apply compute_changes_quiz_sorts; try done. intros q. apply Hc'.
Qed.

Lemma compute_changes_quiz_raise (old_idx new_idx : gmap string (list (gmap string value)))
    (k : string) :
  k ∈ dom old_idx ∪ dom new_idx → py_int k = None →
  compute_changes_quiz old_idx new_idx = Raise ValueError.
Proof.
  intros Hk Hnone. unfold compute_changes_quiz.
  destruct (sorted_key_int_result (set_iter (dom new_idx ∖ dom old_idx)))
    as [[a Ha]| ->]; [rewrite Ha; simpl|done].
  destruct (sorted_key_int_result (set_iter (dom old_idx ∖ dom new_idx)))
    as [[r Hr]| ->]; [rewrite Hr; simpl|done].
  destruct (sorted_key_int_result (set_iter (dom old_idx ∩ dom new_idx)))
    as [[c Hc]| ->]; [|done].
  exfalso.
  destruct (decide (k ∈ dom old_idx)) as [Ho|Ho], (decide (k ∈ dom new_idx)) as [Hn|Hn].
  - rewrite (sorted_ids_raise (dom old_idx ∩ dom new_idx) k) in Hc;
      [done|by apply elem_of_intersection|done].
  - rewrite (sorted_ids_raise (dom old_idx ∖ dom new_idx) k) in Hr;
      [done|by apply elem_of_difference|done].
  - rewrite (sorted_ids_raise (dom new_idx ∖ dom old_idx) k) in Ha;
      [done|by apply elem_of_difference|done].
  - by apply elem_of_union in Hk as [|].
Qed.

Lemma elem_of_changed_of (old_idx new_idx : gmap string (list (gmap string value)))
    (common : list string) (q : string) (diffs : list (nat * field_diffs)) :
  (∀ k, k ∈ common ↔ k ∈ dom old_idx ∩ dom new_idx) →
  (q, diffs) ∈ omap (changed_of old_idx new_idx) common ↔
    ∃ ga gb, old_idx !! q = Some ga ∧ new_idx !! q = Some gb ∧
             diffs = list_diff ga gb ∧ diffs ≠ [].
Proof.
  intros Hcommon. rewrite list_elem_of_omap. unfold changed_of. split.
  - intros (q' & _ & Hq').
    destruct (old_idx !! q') as [ga|] eqn:Ha; [|done].
    destruct (new_idx !! q') as [gb|] eqn:Hb; [|done]. simpl in Hq'.
    destruct (list_diff ga gb) as [|d ds] eqn:Hd; [done|]. simplify_eq.
    exists ga, gb. by rewrite Hd.
  - intros (ga & gb & Ha & Hb & -> & Hne). exists q. split.
    + apply Hcommon, elem_of_intersection. split; apply elem_of_dom; by eexists.
    + rewrite Ha, Hb; simpl. by destruct (list_diff ga gb).
Qed.
End compute_changes_facts.

Lemma ids_parse_elements (s : gmap string (list (gmap string value))) :
  Forall (λ k, is_Some (py_int k)) (elements (dom s)) → ids_parse s.
Proof.
  intros Hall k Hk. rewrite Forall_forall in Hall. by apply Hall, elem_of_elements.
Qed.

(** C5.  For snapshots with plain identifiers (ASCII characters, at most
    4300 of them), on which [py_int] is [int]: when every identifier of
    both snapshots parses as an integer, [compute_changes_quiz] returns;
    its added list holds the identifiers of the new snapshot that the old
    one lacks, its removed list those of the old snapshot that the new one
    lacks, and both lists are ascending in the numeric value of the
    identifiers.  When some identifier of either snapshot does not parse,
    [compute_changes_quiz] raises [ValueError] and returns no list at
    all. *)
Theorem compute_changes_quiz_numeric_order `{SetOrder}
    (old_idx new_idx : gmap string (list (gmap string value))) :
  plain_ids old_idx → plain_ids new_idx →
  (ids_parse old_idx → ids_parse new_idx →
   ∃ c, compute_changes_quiz old_idx new_idx = Ok c ∧
     StronglySorted int_le (added c) ∧
     StronglySorted int_le (removed c) ∧
     (∀ k, k ∈ added c ↔ k ∈ dom new_idx ∧ k ∉ dom old_idx) ∧
     (∀ k, k ∈ removed c ↔ k ∈ dom old_idx ∧ k ∉ dom new_idx)) ∧
  (∀ k, k ∈ dom old_idx ∪ dom new_idx → py_int k = None →
     compute_changes_quiz old_idx new_idx = Raise ValueError).
Proof.
  intros _ _. split.
  - intros Hold Hnew.
    destruct (compute_changes_quiz_ok old_idx new_idx Hold Hnew)
      as (a & r & common & Hc & (Ha & _ & Hsa) & (Hr & _ & Hsr) & _).
    eexists. split; [exact Hc|]. unfold added, removed; simpl.
    split_and!; [done|done|..]; intros k.
    + by rewrite Ha, elem_of_difference.
    + by rewrite Hr, elem_of_difference.
  - apply compute_changes_quiz_raise.
Qed.

Lemma plain_ids_elements (s : gmap string (list (gmap string value))) :
  forallb plain_id (elements (dom s)) = true → plain_ids s.
Proof.
  rewrite forallb_forall. intros Hall k Hk.
  by apply Hall, list_elem_of_In, elem_of_elements.
Qed.

Lemma compute_changes_quiz_numeric_order_witness :
  ∃ c, @compute_changes_quiz elements_order ex_old ex_new = Ok c ∧
    StronglySorted int_le (added c) ∧
    StronglySorted int_le (removed c) ∧
    (∀ k, k ∈ added c ↔ k ∈ dom ex_new ∧ k ∉ dom ex_old) ∧
    (∀ k, k ∈ removed c ↔ k ∈ dom ex_old ∧ k ∉ dom ex_new).
Proof.
  refine (proj1 (@compute_changes_quiz_numeric_order elements_order ex_old ex_new _ _) _ _).
  - apply plain_ids_elements. vm_compute. reflexivity.
  - apply plain_ids_elements. vm_compute. reflexivity.
  - apply ids_parse_elements. vm_compute. repeat constructor; by eexists.
  - apply ids_parse_elements. vm_compute. repeat constructor; by eexists.
Defined.

(** The identifiers ["3"] and ["20"] are reported in numeric order, and an
    identifier that is no integer makes the function raise. *)
Example compute_changes_quiz_3_before_20 :
  added <$> @compute_changes_quiz elements_order ex_old ex_new = Ok ["3"; "20"] ∧
  @compute_changes_quiz elements_order ex_old (<["quiz" := []]> ex_new)
    = Raise ValueError.
Proof. split; by vm_compute. Qed.

(** C6. The added list of the comparison of [a] with [b] is the removed
    list of the comparison of [b] with [a], and the removed list of the
    first is the added list of the second; one comparison raises exactly
    when the other does. *)
Theorem compute_changes_quiz_symmetry `{SetOrder}
    (a b : gmap string (list (gmap string value))) :
  added <$> compute_changes_quiz a b = removed <$> compute_changes_quiz b a ∧
  removed <$> compute_changes_quiz a b = added <$> compute_changes_quiz b a.
Proof.
  assert (Hsym : ∀ x y : gmap string (list (gmap string value)),
            added <$> compute_changes_quiz x y = removed <$> compute_changes_quiz y x).
  { clear a b. intros a b.
    destruct (sorted_key_int_result (set_iter (dom b ∖ dom a))) as [[ba Hba]|Hba];
    destruct (sorted_key_int_result (set_iter (dom a ∖ dom b))) as [[ab Hab]|Hab];
    destruct (sorted_key_int_result (set_iter (dom a ∩ dom b))) as [[c Hc]|Hc];
    pose proof Hc as Hc'; rewrite (comm_L (∩) (dom a) (dom b)) in Hc';
    try (rewrite (compute_changes_quiz_sorts a b ba ab c),
                 (compute_changes_quiz_sorts b a ab ba c); try done;
         intros q Hq; apply elem_of_set_iter;
         [rewrite <-(sorted_key_int_perm _ _ Hc')|rewrite <-(sorted_key_int_perm _ _ Hc)];
         done);
    unfold compute_changes_quiz; rewrite ?Hba, ?Hab, ?Hc, ?Hc'; simpl;
    rewrite ?Hba, ?Hab, ?Hc, ?Hc'; done. }
  split; [apply Hsym|]. symmetry. apply Hsym.
Qed.

(** C2. Comparing a snapshot whose identifiers parse as integers with
    itself gives the empty change-set. *)
Theorem compute_changes_quiz_same `{SetOrder}
    (s : gmap string (list (gmap string value))) :
  ids_parse s → compute_changes_quiz s s = Ok ([], [], []).
Proof.
  intros Hs.
  destruct (sorted_ids_ok (dom s ∩ dom s)) as (c & Hc & Hin & _).
  { intros k [Hk _]%elem_of_intersection. by apply Hs. }
  rewrite (compute_changes_quiz_sorts s s [] [] c); try done.
  - do 2 f_equal. clear Hc Hin. induction c as [|q c IH]; [done|]. simpl.
    unfold changed_of at 1. destruct (s !! q) as [g|]; simpl; [|done].
    by rewrite list_diff_same.
  - by rewrite difference_diag_L, set_iter_empty.
  - by rewrite difference_diag_L, set_iter_empty.
  - intros q. apply Hin.
Qed.

Lemma compute_changes_quiz_same_witness :
  @compute_changes_quiz elements_order ex_new ex_new = Ok ([], [], []).
Proof.
  apply (@compute_changes_quiz_same elements_order ex_new).
  apply ids_parse_elements. vm_compute. repeat constructor; by eexists.
Defined.

(** C1. For two snapshots whose identifiers parse as integers
    [compute_changes_quiz] returns, and for every identifier [q] of both,
    with groups [ga] and [gb]:
    - the changed list holds [q] exactly when the comparison of [ga] with
      [gb] recorded a position, and then holds it with that comparison;
    - a recorded position is below the length of the longer group, is
      recorded once, and its diff is not empty;
    - where both groups have an entry, the pairs recorded for the position
      are, one per field name, the pairs of old and new value of the
      fields, among the field names of either entry, whose values differ;
    - where one group has an entry and the other has none, the position
      holds the single field ["<entry>"] with the entry on its side and
      [None] on the other. *)
Theorem compute_changes_quiz_changed `{SetOrder}
    (old_idx new_idx : gmap string (list (gmap string value))) :
  ids_parse old_idx → ids_parse new_idx →
  ∃ c, compute_changes_quiz old_idx new_idx = Ok c ∧
    ∀ q ga gb, old_idx !! q = Some ga → new_idx !! q = Some gb →
      let diffs := list_diff ga gb in
      (q ∈ (changed c).*1 ↔ ∃ i fd, (i, fd) ∈ diffs) ∧
      (∀ d, (q, d) ∈ changed c → d = diffs) ∧
      (∀ i fd, (i, fd) ∈ diffs →
         (i < max (length ga) (length gb))%nat ∧ fd ≠ [] ∧ NoDup fd.*1) ∧
      NoDup diffs.*1 ∧
      (∀ i l r, ga !! i = Some l → gb !! i = Some r →
         ∀ k ov nv,
           (∃ fd, (i, fd) ∈ diffs ∧ (k, (ov, nv)) ∈ fd) ↔
           k ∈ dom l ∪ dom r ∧ differs l r k ∧
           ov = AVal (dict_get l k) ∧ nv = AVal (dict_get r k)) ∧
      (∀ i l, ga !! i = Some l → gb !! i = None →
         (i, [(ENTRY, (ADict l, AVal VNone))]) ∈ diffs) ∧
      (∀ i r, ga !! i = None → gb !! i = Some r →
         (i, [(ENTRY, (AVal VNone, ADict r))]) ∈ diffs).
Proof.
  intros Hold Hnew.
  destruct (compute_changes_quiz_ok old_idx new_idx Hold Hnew)
    as (a & r & common & Hc & _ & _ & Hcommon & _).
  eexists. split; [exact Hc|]. unfold changed; simpl.
  intros q ga gb Ha Hb. set (diffs := list_diff ga gb).
  pose proof (elem_of_changed_of old_idx new_idx common q) as Hq.
  assert (Hnd : NoDup diffs.*1).
  { apply StronglySorted_lt_NoDup, list_diff_indices_sorted. }
  split_and!.
  - rewrite list_elem_of_fmap. split.
    + intros ([q' d] & -> & Hin). apply Hq in Hin as (ga' & gb' & ? & ? & -> & Hne); [|done].
      simplify_eq/=. fold diffs in Hne |- *. destruct diffs as [|[i fd] ds]; [done|].
      exists i, fd. left.
    + intros (i & fd & Hin). exists (q, diffs). split; [done|].
      apply Hq; [done|]. exists ga, gb. split_and!; try done.
      intros Hnil. rewrite Hnil in Hin. by apply elem_of_nil in Hin.
  - intros d Hin. apply Hq in Hin as (ga' & gb' & ? & ? & -> & _); [|done]. by simplify_eq.
  - intros i fd [-> Hne]%elem_of_list_diff. split_and!; [by apply position_diff_lt|done|].
    unfold position_diff.
    destruct (ga !! i) as [l|], (gb !! i) as [r'|]; simpl;
      try (by apply NoDup_singleton); try apply NoDup_nil_2.
    destruct (dict_eq l r'); [apply NoDup_nil_2|apply changed_fields_NoDup].
  - done.
  - intros i l r' Hl Hr k ov nv.
    assert (Hpd : position_diff ga gb i = if dict_eq l r' then [] else changed_fields l r').
    { unfold position_diff. by rewrite Hl, Hr. }
    rewrite <-elem_of_changed_fields. split.
    + intros (fd & [-> _]%elem_of_list_diff & Hin). rewrite Hpd in Hin.
      destruct (dict_eq l r'); [by apply elem_of_nil in Hin|done].
    + intros Hin. exists (changed_fields l r'). split; [|done].
      apply elem_of_list_diff. rewrite Hpd.
      destruct (dict_eq l r') eqn:Heq.
      * apply elem_of_changed_fields in Hin as (_ & Hd & _).
        unfold differs in Hd. by rewrite dict_eq_get in Hd.
      * split; [done|]. intros Hnil. rewrite Hnil in Hin. by apply elem_of_nil in Hin.
  - intros i l Hl Hr. apply elem_of_list_diff. unfold position_diff. by rewrite Hl, Hr.
  - intros i r' Hl Hr. apply elem_of_list_diff. unfold position_diff. by rewrite Hl, Hr.
Qed.

Lemma compute_changes_quiz_changed_witness :
  ∃ c, @compute_changes_quiz elements_order ex_old ex_new = Ok c ∧
    ∀ q ga gb, ex_old !! q = Some ga → ex_new !! q = Some gb →
      let diffs := @list_diff elements_order ga gb in
      (q ∈ (changed c).*1 ↔ ∃ i fd, (i, fd) ∈ diffs) ∧
      (∀ d, (q, d) ∈ changed c → d = diffs) ∧
      (∀ i fd, (i, fd) ∈ diffs →
         (i < max (length ga) (length gb))%nat ∧ fd ≠ [] ∧ NoDup fd.*1) ∧
      NoDup diffs.*1 ∧
      (∀ i l r, ga !! i = Some l → gb !! i = Some r →
         ∀ k ov nv,
           (∃ fd, (i, fd) ∈ diffs ∧ (k, (ov, nv)) ∈ fd) ↔
           k ∈ dom l ∪ dom r ∧ differs l r k ∧
           ov = AVal (dict_get l k) ∧ nv = AVal (dict_get r k)) ∧
      (∀ i l, ga !! i = Some l → gb !! i = None →
         (i, [(ENTRY, (ADict l, AVal VNone))]) ∈ diffs) ∧
      (∀ i r, ga !! i = None → gb !! i = Some r →
         (i, [(ENTRY, (AVal VNone, ADict r))]) ∈ diffs).
Proof.
  apply (@compute_changes_quiz_changed elements_order ex_old ex_new).
  - apply ids_parse_elements. vm_compute. repeat constructor; by eexists.
  - apply ids_parse_elements. vm_compute. repeat constructor; by eexists.
Defined.

(** The change-set of the example snapshots: quiz 10 changes its base
    flag at position 0 and gains an entry at position 1. *)
Example compute_changes_quiz_example :
  @compute_changes_quiz elements_order ex_old ex_new
    = Ok (["3"; "20"], [],
          [("10", [(0%nat, [("base", (AVal (VBool true), AVal (VBool false)))]);
                   (1%nat, [(ENTRY, (AVal VNone, ADict (normalize_due_entry ex_base)))])])]).
Proof. by vm_compute. Qed.

(** C10, as the code has it.  For two lists of entries none of which has a
    field named ["<entry>"], the result of [list_diff] has strictly
    increasing positions, each below the length of the longer list; the
    two values of every recorded pair are different; and a position that
    holds ["<entry>"] holds no other field name and has [None] on exactly
    one side of its pair. *)
Theorem list_diff_well_formed `{SetOrder} (a b : list (gmap string value)) :
  Forall (λ e : gmap string value, e !! ENTRY = None) (a ++ b) →
  well_formed_diffs a b (list_diff a b).
Proof.
  intros Hno. split; [apply list_diff_indices_sorted|].
  intros i fd [-> Hne]%elem_of_list_diff.
  split; [by apply position_diff_lt|].
  unfold position_diff in *.
  destruct (a !! i) as [l|] eqn:Ha, (b !! i) as [r|] eqn:Hb; [| | |done].
  - destruct (dict_eq l r); [done|]. split.
    + intros k ov nv (_ & Hd & -> & ->)%elem_of_changed_fields. done.
    + intros ov nv (Hin & _)%elem_of_changed_fields. exfalso.
      rewrite Forall_app, !Forall_forall in Hno. destruct Hno as [Hl Hr].
      apply elem_of_union in Hin as [Hin|Hin]; apply elem_of_dom in Hin as [v Hv].
      * rewrite (Hl l) in Hv; [done|]. by eapply list_elem_of_lookup_2.
      * rewrite (Hr r) in Hv; [done|]. by eapply list_elem_of_lookup_2.
  - split.
    + intros k ov nv Hin%list_elem_of_singleton. by simplify_eq.
    + intros ov nv Hin%list_elem_of_singleton. simplify_eq. split; [done|]. by right.
  - split.
    + intros k ov nv Hin%list_elem_of_singleton. by simplify_eq.
    + intros ov nv Hin%list_elem_of_singleton. simplify_eq. split; [done|]. by left.
Qed.

Lemma list_diff_well_formed_witness :
  well_formed_diffs [normalize_due_entry ex_base]
    [normalize_due_entry ex_nonbase; normalize_due_entry ex_base]
    (@list_diff elements_order [normalize_due_entry ex_base]
       [normalize_due_entry ex_nonbase; normalize_due_entry ex_base]).
Proof.
  apply (@list_diff_well_formed elements_order).
  repeat constructor; by vm_compute.
Defined.

(** C10 as stated fails for entries that use ["<entry>"] as a field name:
    the position holds the marker with two values that are not [None]. *)
Lemma list_diff_marker_collision :
  @list_diff elements_order [ex_marked_old] [ex_marked_new]
    = [(0%nat, [(ENTRY, (AVal (VInt 1), AVal (VInt 2)))])] ∧
  ¬ well_formed_diffs [ex_marked_old] [ex_marked_new]
      (@list_diff elements_order [ex_marked_old] [ex_marked_new]).
Proof.
  assert (Hd : @list_diff elements_order [ex_marked_old] [ex_marked_new]
                 = [(0%nat, [(ENTRY, (AVal (VInt 1), AVal (VInt 2)))])]) by by vm_compute.
  split; [done|]. rewrite Hd. intros [_ Hwf].
  destruct (Hwf 0%nat [(ENTRY, (AVal (VInt 1), AVal (VInt 2)))]) as (_ & _ & Hm); [left|].
  destruct (Hm (AVal (VInt 1)) (AVal (VInt 2))) as [_ [[? _]|[_ ?]]]; [left|done..].
Qed.

(** ** Further properties *)

(** *** Symmetry of the comparison *)

Lemma py_eq_sym (v w : value) : py_eq v w = py_eq w v.
Proof.
  destruct v as [|a|m|s], w as [|b|n|t]; simpl; try done.
  - by destruct a, b.
  - apply Z.eqb_sym.
  - apply String.eqb_sym.
Qed.

Lemma dict_eq_same_fields (d1 d2 : gmap string value) :
  dict_eq d1 d2 = true ↔ dom d1 = dom d2 ∧ same_fields d1 d2.
Proof.
  split.
  - intros Heq. split; [by apply dict_eq_dom|]. intros k. by apply dict_eq_get.
  - intros [Hdom Hsame]. apply dict_eq_lookup. split.
    + by rewrite <-!size_dom, Hdom.
    + intros k v Hk.
      assert (Hin : k ∈ dom d2) by (rewrite <-Hdom; apply elem_of_dom; by eexists).
      apply elem_of_dom in Hin as [w Hw]. exists w. split; [done|].
      specialize (Hsame k). unfold dict_get in Hsame. by rewrite Hk, Hw in Hsame.
Qed.

Lemma same_fields_sym (l r : gmap string value) : same_fields l r → same_fields r l.
Proof. intros Hs k. by rewrite py_eq_sym. Qed.

Lemma dict_eq_sym (d1 d2 : gmap string value) : dict_eq d1 d2 = dict_eq d2 d1.
Proof.
  apply eq_true_iff_eq. rewrite !dict_eq_same_fields.
  split; intros [? ?]; split; auto using same_fields_sym.
Qed.

Section differ_symmetry.
Context `{SetOrder}.

Lemma changed_fields_swap (l r : gmap string value) :
  changed_fields r l = swap_pair <$> changed_fields l r.
Proof.
  rewrite !changed_fields_filter, <-list_fmap_compose.
  rewrite (comm_L (∪) (dom r) (dom l)).
  rewrite (list_filter_iff (differs r l) (differs l r)).
  - apply list_fmap_ext. intros _ k _. reflexivity.
  - intros k. unfold differs. by rewrite py_eq_sym.
Qed.

Lemma position_diff_swap (a b : list (gmap string value)) (i : nat) :
  position_diff b a i = swap_pair <$> position_diff a b i.
Proof.
  unfold position_diff. destruct (a !! i) as [l|], (b !! i) as [r|]; try done.
  rewrite dict_eq_sym. destruct (dict_eq l r); [done|apply changed_fields_swap].
Qed.

Lemma position_entry_swap (a b : list (gmap string value)) (i : nat) :
  position_entry b a i = mirror <$> position_entry a b i.
Proof.
  unfold position_entry. rewrite position_diff_swap.
  by destruct (position_diff a b i).
Qed.

Lemma list_diff_mirror (a b : list (gmap string value)) :
  list_diff b a = mirror <$> list_diff a b.
Proof.
  rewrite !list_diff_omap, Nat.max_comm.
  induction (seq 0 (length a `max` length b)) as [|i l IH]; [done|].
  csimpl. rewrite position_entry_swap, IH.
  by destruct (position_entry a b i).
Qed.


Lemma changed_fields_nil (l r : gmap string value) :
  changed_fields l r = [] ↔ same_fields l r.
Proof.
  split.
  - intros Hnil k. destruct (py_eq (dict_get l k) (dict_get r k)) eqn:Hk; [done|].
    assert (Hin : (k, (AVal (dict_get l k), AVal (dict_get r k))) ∈ changed_fields l r).
    { apply elem_of_changed_fields. split_and!; try done. by apply differs_in_union. }
    rewrite Hnil in Hin. by apply elem_of_nil in Hin.
  - intros Hsame. destruct (changed_fields l r) as [|[k [ov nv]] fd] eqn:Hfd; [done|].
    assert (Hin : (k, (ov, nv)) ∈ changed_fields l r) by (rewrite Hfd; left).
    apply elem_of_changed_fields in Hin as (_ & Hd & _).
    unfold differs in Hd. by rewrite Hsame in Hd.
Qed.

Lemma list_diff_nil_same_fields (a b : list (gmap string value)) :
  list_diff a b = [] ↔ Forall2 same_fields a b.
Proof.
  rewrite list_diff_nil, Forall2_lookup. split.
  - intros Hall i. specialize (Hall i). unfold position_diff in Hall.
    destruct (a !! i) as [l|], (b !! i) as [r|]; try done; [|constructor].
    constructor. destruct (dict_eq l r) eqn:Heq.
    + by apply dict_eq_same_fields in Heq as [_ ?].
    + by apply changed_fields_nil.
  - intros Hall i. specialize (Hall i). unfold position_diff.
    destruct (a !! i) as [l|], (b !! i) as [r|]; inversion Hall; subst; [|done].
    destruct (dict_eq l r); [done|]. by apply changed_fields_nil.
Qed.

(** X2. The comparison of two groups records nothing exactly when the
    groups have the same length and, position by position, [get] returns
    equal values on the two entries for every field name.  A field that
    is [None] in one entry and absent from the other is therefore no
    difference; for entries with the same field names the condition is
    equality of the entries. *)
Theorem list_diff_nil_iff (a b : list (gmap string value)) :
  (list_diff a b = [] ↔ Forall2 same_fields a b) ∧
  (Forall2 (λ l r, dom l = dom r) a b →
   (list_diff a b = [] ↔ Forall2 (λ l r, dict_eq l r = true) a b)).
Proof.
  split; [apply list_diff_nil_same_fields|].
  intros Hdom. rewrite list_diff_nil_same_fields. split; intros Hall.
  - induction Hdom as [|l r a b Hd Hdom IH]; [constructor|].
    apply Forall2_cons in Hall as [Hlr Hall].
    constructor; [by apply dict_eq_same_fields|by apply IH].
  - eapply Forall2_impl; [exact Hall|].
    intros l r Heq. by apply dict_eq_same_fields in Heq as [_ ?].
Qed.
End differ_symmetry.

(** *** Groups that grow or shrink at the end *)

Section differ_append.
Context `{SetOrder}.

Lemma omap_seq_imap {B} (g : nat → option B) (f : nat → gmap string value → B)
    (extra : list (gmap string value)) (start : nat) :
  (∀ j e, extra !! j = Some e → g (start + j)%nat = Some (f j e)) →
  omap g (seq start (length extra)) = imap f extra.
Proof.
  revert start f. induction extra as [|e extra IH]; intros start f Hg; [done|].
  csimpl. rewrite <-(Nat.add_0_r start) at 1. rewrite (Hg 0%nat e eq_refl). f_equal.
  apply IH. intros j e' Hj.
  replace (S start + j)%nat with (start + S j)%nat by lia. by apply Hg.
Qed.

Lemma omap_none {A B} (g : A → option B) (l : list A) :
  (∀ x, x ∈ l → g x = None) → omap g l = [].
Proof.
  induction l as [|x l IH]; intros Hg; [done|]. csimpl.
  rewrite (Hg x) by left. apply IH. intros y Hy. apply Hg. by right.
Qed.

(** X3. When the new group is the old group with entries appended, the
    comparison records exactly the appended entries, each as a whole-entry
    addition at its position; when the old group is the new group with
    entries appended, it records them as whole-entry removals.  In
    particular the comparison with an empty group lists every entry of the
    other. *)
Theorem list_diff_append (a extra : list (gmap string value)) :
  list_diff a (a ++ extra)
    = imap (λ j e, ((length a + j)%nat, entry_added e)) extra ∧
  list_diff (a ++ extra) a
    = imap (λ j e, ((length a + j)%nat, entry_removed e)) extra.
Proof.
  assert (Hadd : list_diff a (a ++ extra)
                   = imap (λ j e, ((length a + j)%nat, entry_added e)) extra).
  { rewrite list_diff_omap, length_app, Nat.max_r by lia.
    rewrite seq_app, omap_app, omap_none; simpl.
    - apply omap_seq_imap. intros j e Hj. unfold position_entry, position_diff.
      rewrite lookup_app_r, lookup_ge_None_2 by lia.
      replace (length a + j - length a)%nat with j by lia. by rewrite Hj.
    - intros i Hi%elem_of_seq. unfold position_entry, position_diff.
      destruct (lookup_lt_is_Some_2 a i) as [l Hl]; [lia|].
      rewrite lookup_app_l, Hl by lia. by rewrite dict_eq_refl. }
  split; [done|]. rewrite list_diff_mirror, Hadd.
  rewrite fmap_imap. by apply imap_ext.
Qed.
End differ_append.

(** *** The three lists of the change-set *)

Lemma StronglySorted_omap_fst {A B} (R : relation A) (f : A → option (A * B)) (l : list A) :
  (∀ x p, f x = Some p → p.1 = x) →
  StronglySorted R l → StronglySorted R (omap f l).*1.
Proof.
  intros Hf. induction 1 as [|x l Hl IH Hx]; csimpl; [constructor|].
  destruct (f x) as [p|] eqn:Hp; [|done]. csimpl.
  constructor; [done|]. rewrite (Hf _ _ Hp).
  apply Forall_forall. intros y (q & -> & (z & Hz & Hq)%list_elem_of_omap)%list_elem_of_fmap.
  rewrite (Hf _ _ Hq). by eapply Forall_forall in Hx.
Qed.

Lemma NoDup_omap_fst {A B} (f : A → option (A * B)) (l : list A) :
  (∀ x p, f x = Some p → p.1 = x) → NoDup l → NoDup (omap f l).*1.
Proof.
  intros Hf. induction 1 as [|x l Hx Hl IH]; csimpl; [constructor|].
  destruct (f x) as [p|] eqn:Hp; [|done]. csimpl.
  constructor; [|done]. rewrite (Hf _ _ Hp).
  intros (q & Hq1 & (z & Hz & Hq)%list_elem_of_omap)%list_elem_of_fmap.
  rewrite (Hf _ _ Hq) in Hq1. by subst.
Qed.

Section change_set.
Context `{SetOrder}.

Lemma changed_of_fst (old_idx new_idx : gmap string (list (gmap string value)))
    (q : string) (p : string * list (nat * field_diffs)) :
  changed_of old_idx new_idx q = Some p → p.1 = q.
Proof.
  unfold changed_of. destruct (old_idx !! q) as [a|]; [|done].
  destruct (new_idx !! q) as [b|]; [|done]. simpl.
  destruct (list_diff a b); [done|]. by intros [= <-].
Qed.

Lemma compute_changes_quiz_Ok_ids (old_idx new_idx : gmap string (list (gmap string value)))
    (c : changes) :
  compute_changes_quiz old_idx new_idx = Ok c → ids_parse old_idx ∧ ids_parse new_idx.
Proof.
  intros Hc. split; intros k Hk; destruct (py_int k) eqn:Hint; try by eexists.
  - rewrite (compute_changes_quiz_raise old_idx new_idx k) in Hc;
      [done|by apply elem_of_union_l|done].
  - rewrite (compute_changes_quiz_raise old_idx new_idx k) in Hc;
      [done|by apply elem_of_union_r|done].
Qed.

(** X4. In every change-set that [compute_changes_quiz] returns for
    snapshots with plain identifiers, no
    identifier occurs twice in a list or in two of the three lists; the
    changed identifiers are identifiers of both snapshots and are, like
    the other two lists, ascending in their numeric value; and every
    identifier of either snapshot is added, removed or common to both. *)
Theorem compute_changes_quiz_partition
    (old_idx new_idx : gmap string (list (gmap string value))) (c : changes) :
  plain_ids old_idx → plain_ids new_idx →
  compute_changes_quiz old_idx new_idx = Ok c →
  NoDup (added c) ∧ NoDup (removed c) ∧ NoDup (changed c).*1 ∧
  StronglySorted int_le (changed c).*1 ∧
  (∀ k, k ∈ (changed c).*1 → k ∈ dom old_idx ∧ k ∈ dom new_idx) ∧
  (∀ k, k ∈ added c → (k ∉ removed c) ∧ (k ∉ (changed c).*1)) ∧
  (∀ k, k ∈ removed c → k ∉ (changed c).*1) ∧
  (∀ k, k ∈ dom old_idx ∪ dom new_idx →
     k ∈ added c ∨ k ∈ removed c ∨ (k ∈ dom old_idx ∧ k ∈ dom new_idx)).
Proof.
  intros _ _ Hc. destruct (compute_changes_quiz_Ok_ids _ _ _ Hc) as [Hold Hnew].
  destruct (compute_changes_quiz_ok old_idx new_idx Hold Hnew)
    as (a & r & common & Hc' & (Ha & Hna & _) & (Hr & Hnr & _) & (Hcm & Hncm & Hscm)).
  rewrite Hc in Hc'. simplify_eq. unfold added, removed, changed; simpl.
  assert (Hch : ∀ k, k ∈ (omap (changed_of old_idx new_idx) common).*1 →
                     k ∈ dom old_idx ∧ k ∈ dom new_idx).
  { intros k (p & -> & (q & Hq & Hp)%list_elem_of_omap)%list_elem_of_fmap.
    rewrite (changed_of_fst _ _ _ _ Hp). by apply elem_of_intersection, Hcm. }
  split_and!; try done.
  - apply NoDup_omap_fst; [apply changed_of_fst|done].
  - apply StronglySorted_omap_fst; [apply changed_of_fst|done].
  - intros k [Hk1 Hk2]%Ha%elem_of_difference. split.
    + intros [? ?]%Hr%elem_of_difference. done.
    + intros [? ?]%Hch. done.
  - intros k [Hk1 Hk2]%Hr%elem_of_difference [? ?]%Hch. done.
  - intros k Hk. destruct (decide (k ∈ dom old_idx)) as [Ho|Ho],
      (decide (k ∈ dom new_idx)) as [Hn|Hn].
    + by right; right.
    + right; left. by apply Hr, elem_of_difference.
    + left. by apply Ha, elem_of_difference.
    + by apply elem_of_union in Hk as [|].
Qed.

(** X5. For a snapshot whose identifiers are plain and parse as integers:
    against an empty old snapshot, as on the first run, every
    identifier of the new snapshot is added and nothing is removed or
    changed; against an empty new snapshot every identifier of the old one
    is removed. *)
Theorem compute_changes_quiz_empty_side (s : gmap string (list (gmap string value))) :
  plain_ids s → ids_parse s →
  (∃ a, compute_changes_quiz ∅ s = Ok (a, [], []) ∧
        a ≡ₚ elements (dom s) ∧ StronglySorted int_le a) ∧
  (∃ r, compute_changes_quiz s ∅ = Ok ([], r, []) ∧
        r ≡ₚ elements (dom s) ∧ StronglySorted int_le r).
Proof.
  intros _ Hs.
  destruct (sorted_ids_ok (dom s)) as (l & Hl & _ & _ & Hsorted); [done|].
  assert (Hperm : l ≡ₚ elements (dom s)).
  { rewrite (sorted_key_int_perm _ _ Hl). apply set_iter_perm. }
  assert (Hnil : sorted_key_int (set_iter ∅) = Ok []) by by rewrite set_iter_empty.
  split; exists l; (split; [|done]).
  - rewrite (compute_changes_quiz_sorts ∅ s l [] []); try done.
    + by rewrite dom_empty_L, difference_empty_L.
    + by rewrite dom_empty_L, difference_disjoint_L by set_solver.
    + by rewrite dom_empty_L, intersection_empty_l_L.
    + intros q Hq. by apply elem_of_nil in Hq.
  - rewrite (compute_changes_quiz_sorts s ∅ [] l []); try done.
    + by rewrite dom_empty_L, difference_disjoint_L by set_solver.
    + by rewrite dom_empty_L, difference_empty_L.
    + by rewrite dom_empty_L, intersection_empty_r_L.
    + intros q Hq. by apply elem_of_nil in Hq.
Qed.

Lemma compute_changes_quiz_no_change
    (old_idx new_idx : gmap string (list (gmap string value))) :
  ids_parse old_idx → dom old_idx = dom new_idx →
  (∀ q ga gb, old_idx !! q = Some ga → new_idx !! q = Some gb →
     Forall2 same_fields ga gb) →
  compute_changes_quiz old_idx new_idx = Ok ([], [], []).
Proof.
  intros Hold Hdom Hsame.
  assert (Hnew : ids_parse new_idx) by (intros k Hk; apply Hold; by rewrite Hdom).
  destruct (sorted_ids_ok (dom old_idx ∩ dom new_idx)) as (cm & Hcm & Hin & _).
  { intros k [Hk _]%elem_of_intersection. by apply Hold. }
  assert (Hnil : sorted_key_int (set_iter ∅) = Ok []) by by rewrite set_iter_empty.
  rewrite (compute_changes_quiz_sorts old_idx new_idx [] [] cm); try done.
  - do 2 f_equal. apply omap_none. intros q Hq%Hin.
    apply elem_of_intersection in Hq as [[ga Hga]%elem_of_dom [gb Hgb]%elem_of_dom].
    unfold changed_of. rewrite Hga, Hgb; simpl.
    by rewrite (proj2 (list_diff_nil_same_fields ga gb) (Hsame q ga gb Hga Hgb)).
  - by rewrite Hdom, difference_diag_L.
  - by rewrite Hdom, difference_diag_L.
  - intros q. apply Hin.
Qed.

(** X6. For snapshots with plain identifiers, [compute_changes_quiz]
    returns the empty change-set exactly when
    the identifiers of the old snapshot parse as integers, the two
    snapshots have the same identifiers, and for every identifier the two
    groups have the same length and, position by position, entries on
    which [get] returns equal values for every field name. *)
Theorem compute_changes_quiz_empty_iff
    (old_idx new_idx : gmap string (list (gmap string value))) :
  plain_ids old_idx → plain_ids new_idx →
  compute_changes_quiz old_idx new_idx = Ok ([], [], []) ↔
    ids_parse old_idx ∧ dom old_idx = dom new_idx ∧
    ∀ q ga gb, old_idx !! q = Some ga → new_idx !! q = Some gb →
      Forall2 same_fields ga gb.
Proof.
  intros _ _. split.
  - intros Hc. destruct (compute_changes_quiz_Ok_ids _ _ _ Hc) as [Hold Hnew].
    destruct (compute_changes_quiz_ok old_idx new_idx Hold Hnew)
      as (a & r & common & Hc' & (Ha & _) & (Hr & _) & (Hcm & _)).
    rewrite Hc in Hc'. injection Hc' as <- <- Hch.
    assert (Hdom : dom old_idx = dom new_idx).
    { apply set_eq. intros k. split; intros Hk.
      - destruct (decide (k ∈ dom new_idx)) as [|Hn]; [done|].
        assert (Hin : k ∈ @nil string) by by apply Hr, elem_of_difference.
        by apply elem_of_nil in Hin.
      - destruct (decide (k ∈ dom old_idx)) as [|Ho]; [done|].
        assert (Hin : k ∈ @nil string) by by apply Ha, elem_of_difference.
        by apply elem_of_nil in Hin. }
    split_and!; [done..|]. intros q ga gb Hga Hgb. apply list_diff_nil_same_fields.
    destruct (list_diff ga gb) as [|d ds] eqn:Hd; [done|].
    assert (Hin : (q, d :: ds) ∈ omap (changed_of old_idx new_idx) common).
    { apply elem_of_changed_of; [done|]. exists ga, gb. by rewrite Hd. }
    rewrite <-Hch in Hin. by apply elem_of_nil in Hin.
  - intros (Hold & Hdom & Hsame). by apply compute_changes_quiz_no_change.
Qed.
End change_set.

(** *** The indexer followed by the differ *)

Lemma elem_of_dom_index (data : payload) (k : string) :
  k ∈ dom (normalize_payload_to_index data) ↔
    ∃ it, it ∈ default [] (payload_overrides data) ∧ item_key it = Some k.
Proof.
  rewrite elem_of_dom, index_lookup. split.
  - intros [g Hg]. destruct (last _) as [it|] eqn:Hlast; [|done].
    apply last_Some_elem_of, list_elem_of_filter in Hlast as [? ?]. by exists it.
  - intros (it & Hit & Hk).
    assert (Hin : it ∈ filter (λ it, item_key it = Some k)
                          (default [] (payload_overrides data)))
      by by apply list_elem_of_filter.
    destruct (last _) as [it'|] eqn:Hlast; [by eexists|].
    apply last_None in Hlast. rewrite Hlast in Hin. by apply elem_of_nil in Hin.
Qed.

Lemma py_int_bool (b : bool) : py_int (py_str (VBool b)) = None.
Proof. by destruct b. Qed.

Section index_then_diff.
Context `{SetOrder}.

(** X7. When every quiz id of two payloads is an integer, comparing their
    snapshots returns a change-set, and comparing the snapshot of a payload
    with itself returns the empty change-set. *)
Theorem index_diff_integer_ids (data1 data2 : payload) :
  integer_ids data1 → integer_ids data2 →
  (∃ c, compute_changes_quiz (normalize_payload_to_index data1)
                             (normalize_payload_to_index data2) = Ok c) ∧
  compute_changes_quiz (normalize_payload_to_index data1)
                       (normalize_payload_to_index data1) = Ok ([], [], []).
Proof.
  assert (Hids : ∀ data, integer_ids data →
            ids_parse (normalize_payload_to_index data)).
  { intros data Hdata. apply canonical_ids_parse, index_integer_ids_canonical.
    eapply Forall_impl; [exact Hdata|]. intros it Hit qid Hq.
    destruct (Hit qid Hq) as [->|(n & -> & _)]; eauto. }
  intros H1%Hids H2%Hids. split.
  - destruct (compute_changes_quiz_ok _ _ H1 H2) as (a & r & cm & Hc & _). by eexists.
  - apply compute_changes_quiz_no_change; [done..|].
    intros q ga gb Hga Hgb. simplify_eq. apply Forall2_same_length_lookup.
    split; [done|]. intros i l r Hl Hr. simplify_eq. intros k. apply py_eq_refl.
Qed.

(** X8. A quiz id whose string form is plain (ASCII, at most 4300
    characters) and rejected by [int], in an item of either payload, makes
    the comparison of the two snapshots raise [ValueError]; the string
    forms of the booleans are such forms. *)
Theorem index_diff_bad_id (data1 data2 : payload) (it : item) (k : string) :
  it ∈ default [] (payload_overrides data1) ++ default [] (payload_overrides data2) →
  item_key it = Some k → plain_id k = true → py_int k = None →
  compute_changes_quiz (normalize_payload_to_index data1)
                       (normalize_payload_to_index data2) = Raise ValueError ∧
  ∀ b, py_int (py_str (VBool b)) = None.
Proof.
  intros Hit Hk _ Hint. split; [|apply py_int_bool].
  apply (compute_changes_quiz_raise _ _ k); [|done].
  apply elem_of_app in Hit as [Hit|Hit].
  - apply elem_of_union_l, elem_of_dom_index. by exists it.
  - apply elem_of_union_r, elem_of_dom_index. by exists it.
Qed.
End index_then_diff.

(** *** More on the normalizer and the indexer *)

(** X9. Normalizing a normalized entry changes nothing. *)
Theorem normalize_due_entry_idempotent (raw : gmap string value) :
  normalize_due_entry (normalize_due_entry raw) = normalize_due_entry raw.
Proof.
  apply map_eq. intros k. rewrite !normalize_due_entry_lookup.
  case_bool_decide as Hk; [|done]. unfold dict_get at 1.
  by rewrite normalize_due_entry_lookup, bool_decide_eq_true_2.
Qed.

Lemma key_le_antisym (x y : gmap string value) :
  key_le x y → key_le y x → sort_key_due x = sort_key_due y.
Proof.
  unfold key_le. intros Hxy Hyx. apply (cmp_eq _ sort_key_compare_ok).
  rewrite (cmp_antisym _ sort_key_compare_ok) in Hyx.
  by destruct (sort_key_compare (sort_key_due x) (sort_key_due y)).
Qed.

Lemma NoDup_fmap_eq {A B} (f : A → B) (l : list A) (x y : A) :
  NoDup (f <$> l) → x ∈ l → y ∈ l → f x = f y → x = y.
Proof.
  intros Hnd [i Hi]%list_elem_of_lookup [j Hj]%list_elem_of_lookup Hf.
  assert (i = j) as ->; [|congruence].
  eapply (NoDup_lookup _ _ _ (f x) Hnd); rewrite list_lookup_fmap.
  - by rewrite Hi.
  - by rewrite Hj, Hf.
Qed.

(** X10. The group of an item does not depend on the order of its due
    entries, provided the normalized entries have pairwise different
    sort keys. *)
Theorem norm_list_order_independent (q1 q2 : option value)
    (l1 l2 : list (gmap string value)) :
  l1 ≡ₚ l2 →
  NoDup (sort_key_due <$> (normalize_due_entry <$> l1)) →
  norm_list (Item q1 (DueList l1)) = norm_list (Item q2 (DueList l2)).
Proof.
  intros Hperm Hnd. apply (StronglySorted_unique_strong key_le).
  - intros x y Hx Hy Hxy Hyx.
    rewrite norm_list_perm in Hx, Hy; simpl in Hx, Hy. rewrite <-Hperm in Hy.
    eapply NoDup_fmap_eq; [exact Hnd|done..|]. by apply key_le_antisym.
  - apply norm_list_sorted.
  - apply norm_list_sorted.
  - rewrite !norm_list_perm; simpl. by rewrite Hperm.
Qed.

(** X11. The sort of a group is stable: the entries of the group that
    have a given sort key are the normalized due entries of the item that
    have this key, in the order of the payload. *)
Theorem norm_list_stable (it : item) (k : sort_key) :
  filter (λ e, sort_key_due e = k) (norm_list it)
    = filter (λ e, sort_key_due e = k)
        (normalize_due_entry <$> due_dates_or_empty (item_due_dates it)).
Proof. apply sort_by_stable, sort_key_lt_asym. Qed.

(** X12. The snapshot of a payload made of two parts is the snapshot of
    the second part, completed by the snapshot of the first part for the
    identifiers that the second part does not have. *)
Theorem index_app (items1 items2 : list item) :
  normalize_payload_to_index (Payload (Some (items1 ++ items2)))
    = normalize_payload_to_index (Payload (Some items2))
        ∪ normalize_payload_to_index (Payload (Some items1)).
Proof.
  apply map_eq. intros k. rewrite lookup_union, !index_lookup; simpl.
  rewrite filter_app, last_app.
  by destruct (last (filter _ items2)), (last (filter _ items1)).
Qed.

(** *** String methods *)

Lemma split_char_not_nil (sep : ascii) (s : string) : split_char sep s ≠ [].
Proof.
  destruct s as [|c s]; simpl; [done|].
  destruct (Ascii.eqb c sep); [done|]. by destruct (split_char sep s).
Qed.

Lemma split_char_chars (sep : ascii) (s p : string) (c : ascii) :
  p ∈ split_char sep s → c ∈ chars p → c ∈ chars s ∧ c ≠ sep.
Proof.
  revert p. induction s as [|d s IH]; intros p; simpl.
  - intros ->%list_elem_of_singleton Hc. by apply elem_of_nil in Hc.
  - destruct (Ascii.eqb_spec d sep) as [->|Hne].
    + intros [->|Hp]%elem_of_cons Hc; [by apply elem_of_nil in Hc|].
      destruct (IH p Hp Hc). split; [by right|done].
    + pose proof (split_char_not_nil sep s) as Hnn.
      destruct (split_char sep s) as [|h t]; [done|].
      intros [->|Hp]%elem_of_cons Hc.
      * apply elem_of_cons in Hc as [->|Hc]; [split; [by left|done]|].
        destruct (IH h) as [? ?]; [by left|done|]. split; [by right|done].
      * destruct (IH p) as [? ?]; [by right|done|]. split; [by right|done].
Qed.

Lemma split_char_free (sep : ascii) (s : string) :
  Forall (free_of sep) (split_char sep s).
Proof.
  apply Forall_forall. intros p Hp Hc. by destruct (split_char_chars sep s p sep Hp Hc).
Qed.

Lemma split_char_free_one (sep : ascii) (p : string) :
  free_of sep p → split_char sep p = [p].
Proof.
  unfold free_of, chars. induction p as [|c p IH]; simpl; [done|].
  rewrite not_elem_of_cons. intros [Hne Hp].
  destruct (Ascii.eqb_spec c sep); [done|]. by rewrite IH.
Qed.

Lemma split_char_app (sep : ascii) (p rest : string) :
  free_of sep p →
  split_char sep (p +:+ String sep rest) = p :: split_char sep rest.
Proof.
  unfold free_of, chars. induction p as [|c p IH]; simpl.
  - intros _. by rewrite Ascii.eqb_refl.
  - rewrite not_elem_of_cons. intros [Hne Hp].
    destruct (Ascii.eqb_spec c sep); [done|]. by rewrite IH.
Qed.

Lemma concat_cons_cons (sep x y : string) (l : list string) :
  String.concat sep (x :: y :: l) = x +:+ sep +:+ String.concat sep (y :: l).
Proof. reflexivity. Qed.

Lemma string_app_char (c : ascii) (s : string) : String c EmptyString +:+ s = String c s.
Proof. reflexivity. Qed.

(** Splitting at a separator undoes joining with it. *)
Lemma split_char_concat (sep : ascii) (parts : list string) :
  parts ≠ [] → Forall (free_of sep) parts →
  split_char sep (String.concat (String sep EmptyString) parts) = parts.
Proof.
  intros Hne Hall. induction Hall as [|p parts Hp Hall IH]; [done|].
  destruct parts as [|q parts].
  - by apply split_char_free_one.
  - rewrite concat_cons_cons, string_app_char, split_char_app by done.
    f_equal. by apply IH.
Qed.

Lemma str_lstrip_cases (s : string) :
  str_lstrip s = s ∨ (String.length (str_lstrip s) < String.length s)%nat.
Proof.
  induction s as [|c s IH]; simpl; [by left|].
  destruct (str_isspace c); [|by left]. right. destruct IH as [->|]; lia.
Qed.

Lemma str_rstrip_length (s : string) :
  (String.length (str_rstrip s) ≤ String.length s)%nat.
Proof.
  induction s as [|c s IH]; simpl; [done|].
  destruct (str_rstrip s); [destruct (str_isspace c)|]; simpl in *; lia.
Qed.

(** A string is stripped when stripping it on either side changes
    nothing. *)
Lemma str_strip_fixed (s : string) :
  str_strip s = s ↔ str_lstrip s = s ∧ str_rstrip s = s.
Proof.
  unfold str_strip. split; [|by intros [-> ->]].
  intros Hs. destruct (str_lstrip_cases s) as [Hl|Hl].
  - by rewrite Hl in Hs.
  - pose proof (str_rstrip_length (str_lstrip s)) as Hr. rewrite Hs in Hr. lia.
Qed.

Lemma str_rstrip_idem (s : string) : str_rstrip (str_rstrip s) = str_rstrip s.
Proof.
  induction s as [|c s IH]; simpl; [done|].
  destruct (str_rstrip s) as [|d t] eqn:Ht.
  - destruct (str_isspace c) eqn:Hc; simpl; [done|]. by rewrite Hc.
  - simpl in IH |- *. by rewrite IH.
Qed.

Lemma str_lstrip_rstrip (s : string) :
  str_lstrip s = s → str_lstrip (str_rstrip s) = str_rstrip s.
Proof.
  destruct s as [|c s]; simpl; [done|].
  destruct (str_isspace c) eqn:Hc.
  - intros Hs. destruct (str_lstrip_cases s) as [Hl|Hl]; rewrite Hs in Hl; simpl in Hl.
    + assert (String.length (String c s) = String.length s) by by rewrite Hl.
      simpl in *. lia.
    + lia.
  - intros _. destruct (str_rstrip s); simpl; by rewrite Hc.
Qed.

Lemma str_lstrip_idem (s : string) : str_lstrip (str_lstrip s) = str_lstrip s.
Proof.
  induction s as [|c s IH]; simpl; [done|].
  destruct (str_isspace c) eqn:Hc; [done|]. simpl. by rewrite Hc.
Qed.

Lemma str_strip_idem (s : string) : str_strip (str_strip s) = str_strip s.
Proof.
  unfold str_strip.
  rewrite (str_lstrip_rstrip (str_lstrip s)) by apply str_lstrip_idem.
  apply str_rstrip_idem.
Qed.

Lemma str_lstrip_chars (s : string) (c : ascii) :
  c ∈ chars (str_lstrip s) → c ∈ chars s.
Proof.
  unfold chars. induction s as [|d s IH]; simpl; [done|].
  destruct (str_isspace d); [|done]. intros Hc. right. by apply IH.
Qed.

Lemma str_rstrip_chars (s : string) (c : ascii) :
  c ∈ chars (str_rstrip s) → c ∈ chars s.
Proof.
  unfold chars. induction s as [|d s IH]; simpl; [done|].
  destruct (str_rstrip s) as [|e t].
  - destruct (str_isspace d); simpl; [by intros ?%elem_of_nil|].
    intros [->|?%elem_of_nil]%elem_of_cons; [by left|done].
  - simpl in *. intros [->|Hc]%elem_of_cons; [by left|]. right. by apply IH.
Qed.

Lemma str_strip_free (c : ascii) (s : string) : free_of c s → free_of c (str_strip s).
Proof.
  unfold free_of, str_strip. intros Hs Hc.
  by apply Hs, str_lstrip_chars, str_rstrip_chars.
Qed.

Lemma chars_app (s t : string) : chars (s +:+ t) = chars s ++ chars t.
Proof. unfold chars. induction s as [|c s IH]; simpl; [done|]. by rewrite IH. Qed.

Lemma chars_cons (c : ascii) (s : string) : chars (String c s) = c :: chars s.
Proof. reflexivity. Qed.

Lemma split_first_app (sep : ascii) (k v : string) :
  free_of sep k → split_first sep (k +:+ String sep v) = Some (k, v).
Proof.
  unfold free_of, chars. induction k as [|c k IH]; simpl.
  - intros _. by rewrite Ascii.eqb_refl.
  - rewrite not_elem_of_cons. intros [Hne Hk].
    destruct (Ascii.eqb_spec c sep); [done|]. by rewrite IH.
Qed.

Lemma split_first_Some (sep : ascii) (s k v : string) :
  split_first sep s = Some (k, v) → s = k +:+ String sep v ∧ free_of sep k.
Proof.
  unfold free_of, chars. revert k. induction s as [|c s IH]; intros k; simpl; [done|].
  destruct (Ascii.eqb_spec c sep) as [->|Hne].
  - intros [= <- <-]. split; [done|]. apply not_elem_of_nil.
  - destruct (split_first sep s) as [[k' v']|]; [|done]. simpl. intros [= <- <-].
    destruct (IH k' eq_refl) as [-> Hk]. split; [done|].
    simpl. rewrite not_elem_of_cons. auto.
Qed.

Lemma split_first_None (sep : ascii) (s : string) :
  free_of sep s → split_first sep s = None.
Proof.
  unfold free_of, chars. induction s as [|c s IH]; simpl; [done|].
  rewrite not_elem_of_cons. intros [Hne Hs].
  destruct (Ascii.eqb_spec c sep); [done|]. by rewrite IH.
Qed.

(** *** Cookies *)

Lemma parse_cookie_string_fold (raw : string) :
  parse_cookie_string raw = foldl cookie_step ∅ (cookie_parts raw).
Proof. unfold parse_cookie_string. by case_decide as Hraw; [rewrite Hraw|]. Qed.

Lemma cookie_parts_free (raw part : string) :
  part ∈ cookie_parts raw → free_of ";" part.
Proof.
  unfold cookie_parts.
  intros [_ (p & -> & Hp)%list_elem_of_fmap]%list_elem_of_filter.
  apply str_strip_free. by eapply Forall_forall in Hp; [|apply split_char_free].
Qed.

Lemma cookie_parts_chars (raw part : string) (c : ascii) :
  part ∈ cookie_parts raw → c ∈ chars part → c ∈ chars raw.
Proof.
  unfold cookie_parts.
  intros [_ (p & -> & Hp)%list_elem_of_fmap]%list_elem_of_filter Hc.
  apply str_rstrip_chars, str_lstrip_chars in Hc.
  by destruct (split_char_chars ";" raw p c Hp Hc).
Qed.

(** X13. Every cookie returned by [parse_cookie_string] has a name and a
    value without surrounding white space and without [;], and a name
    without [=]. *)
Theorem parse_cookie_string_clean (raw k v : string) :
  parse_cookie_string raw !! k = Some v → clean_cookie (k, v).
Proof.
  rewrite parse_cookie_string_fold.
  assert (Hinv : ∀ (parts : list string) (m : gmap string string),
            Forall (free_of ";") parts →
            (∀ k v, m !! k = Some v → clean_cookie (k, v)) →
            ∀ k v, foldl cookie_step m parts !! k = Some v → clean_cookie (k, v)).
  { clear. induction parts as [|part parts IH]; intros m Hparts Hm; simpl; [done|].
    apply Forall_cons in Hparts as [Hpart Hparts]. apply IH; [done|].
    unfold cookie_step. destruct (split_first "=" part) as [[k0 v0]|] eqn:Hsplit; [|done].
    apply split_first_Some in Hsplit as [-> Hk0].
    unfold free_of in Hpart. rewrite chars_app in Hpart. simpl in Hpart.
    rewrite not_elem_of_app, not_elem_of_cons in Hpart. destruct Hpart as (? & _ & ?).
    intros k v. rewrite lookup_insert. case_decide as Hk; [|by apply Hm].
    intros [= <-]. subst k. unfold clean_cookie; simpl.
    split_and!; auto using str_strip_idem, str_strip_free. }
  apply Hinv; [|by intros ? ? ?].
  apply Forall_forall. intros part. apply cookie_parts_free.
Qed.

(** X14. A cookie string without [=] gives no cookie. *)
Theorem parse_cookie_string_no_equals (raw : string) :
  free_of "=" raw → parse_cookie_string raw = ∅.
Proof.
  intros Hraw. rewrite parse_cookie_string_fold.
  assert (Hparts : Forall (free_of "=") (cookie_parts raw)).
  { apply Forall_forall. intros part Hpart Hc. by apply Hraw, (cookie_parts_chars raw part). }
  induction Hparts as [|part parts Hpart _ IH]; simpl; [done|].
  unfold cookie_step at 2. by rewrite split_first_None.
Qed.

Lemma concat_cons_space (t : string) (l : list string) :
  String.concat ";" (String " " t :: l) = String " " (String.concat ";" (t :: l)).
Proof. by destruct l. Qed.

Lemma concat_semicolon_space (x : string) (rest : list string) :
  String.concat "; " (x :: rest) = String.concat ";" (x :: (String " " <$> rest)).
Proof.
  revert x. induction rest as [|y rest IH]; intros x; [done|].
  rewrite fmap_cons, !concat_cons_cons, IH, concat_cons_space. reflexivity.
Qed.

Lemma str_lstrip_app (k rest : string) (c : ascii) :
  str_lstrip k = k → str_isspace c = false →
  str_lstrip (k +:+ String c rest) = k +:+ String c rest.
Proof.
  destruct k as [|d k]; simpl; [by intros _ ->|].
  destruct (str_isspace d); [|done]. intros Hk.
  destruct (str_lstrip_cases k) as [Hl|Hl]; rewrite Hk in Hl; simpl in Hl; [|lia].
  assert (String.length (String d k) = String.length k) by by rewrite Hl.
  simpl in *. lia.
Qed.

Lemma str_rstrip_app (a t : string) :
  str_rstrip t = t → t ≠ EmptyString → str_rstrip (a +:+ t) = a +:+ t.
Proof.
  intros Ht Hne. induction a as [|c a IH]; simpl; [done|].
  rewrite IH. destruct (a +:+ t) as [|d u] eqn:Hat.
  - destruct a; cbn in Hat; [by apply Hne in Hat|discriminate].
  - by rewrite <-Hat.
Qed.

Lemma str_strip_pair_text (kv : string * string) :
  clean_cookie kv → str_strip (pair_text kv) = pair_text kv.
Proof.
  destruct kv as [k v]. intros ([Hk _]%str_strip_fixed & [_ Hv]%str_strip_fixed & _).
  unfold pair_text; simpl in *. apply str_strip_fixed. split.
  - by apply str_lstrip_app.
  - apply str_rstrip_app; [|done]. simpl. rewrite Hv. by destruct v.
Qed.

Lemma pair_text_free (kv : string * string) :
  clean_cookie kv → free_of ";" (pair_text kv).
Proof.
  destruct kv as [k v]. intros (_ & _ & Hk & _ & Hv). unfold free_of, pair_text in *.
  simpl in *. rewrite chars_app. simpl. rewrite not_elem_of_app, not_elem_of_cons. done.
Qed.

Lemma cookie_parts_join (kvs : list (string * string)) :
  Forall clean_cookie kvs →
  cookie_parts (String.concat "; " (pair_text <$> kvs)) = pair_text <$> kvs.
Proof.
  intros Hall. destruct kvs as [|kv kvs]; [done|].
  apply Forall_cons in Hall as [Hkv Hall].
  unfold cookie_parts. rewrite fmap_cons, concat_semicolon_space, split_char_concat.
  - rewrite fmap_cons, str_strip_pair_text by done.
    rewrite filter_cons_True by (by destruct kv as [[] ?]). f_equal.
    induction Hall as [|kv' kvs' Hkv' Hall IH]; [done|]. csimpl.
    assert (Hs : str_strip (String " " (pair_text kv')) = pair_text kv').
    { unfold str_strip. simpl. by apply str_strip_pair_text. }
    rewrite Hs, filter_cons_True by (by destruct kv' as [[] ?]). by f_equal.
  - done.
  - constructor; [by apply pair_text_free|].
    apply Forall_fmap, Forall_fmap. eapply Forall_impl; [exact Hall|].
    intros kv' Hkv' Hc. unfold chars in Hc. simpl in Hc.
    apply elem_of_cons in Hc as [?|Hc]; [done|]. by apply (pair_text_free kv').
Qed.

Lemma foldl_insert_list_to_map (kvs : list (string * string)) :
  foldl (λ (m : gmap string string) kv, <[kv.1 := kv.2]> m) ∅ kvs
    = list_to_map (reverse kvs).
Proof.
  induction kvs as [|kv kvs IH] using rev_ind; [done|].
  by rewrite foldl_app, reverse_app, IH.
Qed.


(** *** Page links *)

Lemma string_app_cons (c : ascii) (s t : string) : String c s +:+ t = String c (s +:+ t).
Proof. reflexivity. Qed.

Lemma all_continuation_app (s : string) : all_continuation (s +:+ ">") = false.
Proof.
  induction s as [|d s IH]; [done|]. rewrite string_app_cons. simpl.
  by rewrite IH, andb_false_r.
Qed.

Lemma drop_last_char_app (s : string) : drop_last_char (s +:+ ">") = s.
Proof.
  induction s as [|c s IH]; [done|]. rewrite string_app_cons. simpl.
  by rewrite all_continuation_app, IH.
Qed.

Lemma drop_continuation_length (u : string) :
  (String.length (drop_continuation u) ≤ String.length u)%nat.
Proof.
  induction u as [|d u IH]; simpl; [done|]. destruct (is_continuation d); simpl; lia.
Qed.

Lemma drop_continuation_app (s : string) :
  drop_continuation s = s → drop_continuation (s +:+ ">") = s +:+ ">".
Proof.
  destruct s as [|c s]; [done|]. rewrite string_app_cons. simpl.
  destruct (is_continuation c) eqn:Hc; [|done]. intros Hs.
  pose proof (drop_continuation_length s) as Hlen. rewrite Hs in Hlen. simpl in Hlen. lia.
Qed.

Lemma slice_inner_brackets (url : string) :
  drop_continuation url = url →
  slice_inner (str_strip (String "<" url +:+ ">")) = url.
Proof.
  intros Hurl.
  assert (str_strip (String "<" url +:+ ">") = String "<" url +:+ ">") as ->.
  { apply str_strip_fixed. split; [done|]. by apply str_rstrip_app. }
  unfold slice_inner. rewrite string_app_cons. simpl.
  by rewrite drop_continuation_app, drop_last_char_app.
Qed.

Lemma not_elem_of_chars_gt (c : ascii) : c ≠ ">"%char → c ∉ chars ">".
Proof.
  intros Hc. change (chars ">") with [">"%char].
  apply not_elem_of_cons. split; [done|apply not_elem_of_nil].
Qed.

Lemma split_char_link_text (p : string * string) :
  clean_link p →
  split_char ";" (link_text p) = [String "<" p.1 +:+ ">"; p.2].
Proof.
  intros (_ & Hu & _ & _ & Hr). unfold link_text.
  rewrite split_char_app, split_char_free_one; [done..|].
  unfold free_of in *. rewrite string_app_cons, chars_cons, chars_app.
  rewrite not_elem_of_cons, not_elem_of_app. split_and!; [done..|].
  by apply not_elem_of_chars_gt.
Qed.

Lemma link_text_free (p : string * string) : clean_link p → free_of "," (link_text p).
Proof.
  intros (Hu & _ & _ & Hr & _). unfold free_of, link_text in *.
  rewrite chars_app, string_app_cons, !chars_cons, chars_app.
  rewrite not_elem_of_app, !not_elem_of_cons, not_elem_of_app.
  split_and!; try done. by apply not_elem_of_chars_gt.
Qed.

Lemma next_link_parts_clean (links : list (string * string)) :
  Forall clean_link links →
  next_link_parts (link_text <$> links)
    = Ok (fst <$> head (filter (λ p, str_contains REL_NEXT p.2 = true) links)).
Proof.
  induction 1 as [|p links Hp Hall IH]; [done|].
  rewrite fmap_cons. cbn [next_link_parts].
  rewrite split_char_link_text by done. rewrite filter_cons.
  destruct (str_contains REL_NEXT p.2) eqn:Hrel.
  - rewrite decide_True by done. simpl.
    rewrite slice_inner_brackets; [done|]. by destruct Hp as (_ & _ & ? & _).
  - rewrite decide_False by done. apply IH.
Qed.

Lemma link_header_split (texts : list string) :
  texts ≠ [] → Forall (free_of ",") texts → Exists (λ t, t ≠ EmptyString) texts →
  next_link (Some (String.concat "," texts)) = next_link_parts texts.
Proof.
  intros Hne Hfree Hex. unfold next_link. rewrite decide_False.
  - by rewrite split_char_concat.
  - intros Hnil. pose proof (split_char_concat "," texts Hne Hfree) as Hsplit.
    rewrite Hnil in Hsplit. simpl in Hsplit.
    rewrite <-Hsplit in Hex. apply Exists_cons in Hex as [?|Hex]; [done|].
    by apply Exists_nil in Hex.
Qed.

Lemma link_text_not_empty (p : string * string) : link_text p ≠ EmptyString.
Proof. done. Qed.

(** X16. For a [Link] header made of links [<address>;parameters] that are
    joined by commas, with addresses and parameters free of commas and
    semicolons, [next_link] returns the address of the first link whose
    parameters contain [rel="next"], and [None] when there is no such
    link. *)
Theorem next_link_header (links : list (string * string)) :
  links ≠ [] → Forall clean_link links →
  next_link (Some (String.concat "," (link_text <$> links)))
    = Ok (fst <$> head (filter (λ p, str_contains REL_NEXT p.2 = true) links)).
Proof.
  intros Hne Hall. rewrite link_header_split.
  - by apply next_link_parts_clean.
  - by destruct links.
  - apply Forall_fmap. eapply Forall_impl; [exact Hall|]. apply link_text_free.
  - destruct links as [|p links]; [done|]. left. apply link_text_not_empty.
Qed.

Lemma split_char_length (sep : ascii) (s : string) :
  length (split_char sep s) = S (count_char sep s).
Proof.
  unfold count_char, chars. induction s as [|c s IH]; simpl; [done|].
  rewrite filter_cons. destruct (Ascii.eqb_spec c sep) as [->|Hne].
  - rewrite decide_True by done. simpl. by rewrite IH.
  - rewrite decide_False by done. pose proof (split_char_not_nil sep s).
    destruct (split_char sep s); [done|]. simpl in *. lia.
Qed.

Lemma next_link_parts_skip (links : list (string * string)) (rest : list string) :
  Forall clean_link links →
  Forall (λ p, str_contains REL_NEXT p.2 = false) links →
  next_link_parts ((link_text <$> links) ++ rest) = next_link_parts rest.
Proof.
  induction 1 as [|p links Hp Hall IH]; intros Hno; [done|].
  apply Forall_cons in Hno as [Hp' Hno].
  rewrite fmap_cons, <-app_comm_cons. cbn [next_link_parts].
  rewrite split_char_link_text by done. rewrite Hp'. by apply IH.
Qed.

(** X17. [next_link] raises [ValueError] when, before any link with
    [rel="next"], the header has a part between commas in which the
    number of semicolons is not one: a link without parameters, a link
    with two parameters, the pieces of an address that holds a comma. *)
Theorem next_link_malformed (links : list (string * string)) (bad : string)
    (rest : list string) :
  Forall clean_link links →
  Forall (λ p, str_contains REL_NEXT p.2 = false) links →
  free_of "," bad → count_char ";" bad ≠ 1%nat → bad ≠ EmptyString →
  Forall (free_of ",") rest →
  next_link (Some (String.concat "," ((link_text <$> links) ++ bad :: rest)))
    = Raise ValueError.
Proof.
  intros Hall Hno Hbad Hcount Hne Hrest. rewrite link_header_split.
  - rewrite next_link_parts_skip by done. simpl.
    pose proof (split_char_length ";" bad) as Hlen.
    destruct (split_char ";" bad) as [|a [|b [|c l]]]; simpl in Hlen; try done. lia.
  - by destruct links.
  - apply Forall_app. split; [|by constructor].
    apply Forall_fmap. eapply Forall_impl; [exact Hall|]. apply link_text_free.
  - apply Exists_app. right. by left.
Qed.

(** *** The properties at the examples *)

Lemma compute_changes_quiz_partition_witness :
  NoDup (added ex_changes) ∧ NoDup (removed ex_changes) ∧
  NoDup (changed ex_changes).*1 ∧
  StronglySorted int_le (changed ex_changes).*1.
Proof.
  destruct (@compute_changes_quiz_partition elements_order ex_old ex_new ex_changes)
    as (? & ? & ? & ? & _).
  - apply plain_ids_elements. vm_compute. reflexivity.
  - apply plain_ids_elements. vm_compute. reflexivity.
  - vm_compute. reflexivity.
  - done.
Defined.

Lemma compute_changes_quiz_empty_side_witness :
  ∃ a, @compute_changes_quiz elements_order ∅ ex_new = Ok (a, [], []) ∧
       a ≡ₚ elements (dom ex_new) ∧ StronglySorted int_le a.
Proof.
  refine (proj1 (@compute_changes_quiz_empty_side elements_order ex_new _ _)).
  - apply plain_ids_elements. vm_compute. reflexivity.
  - apply ids_parse_elements. vm_compute. repeat constructor; by eexists.
Defined.

Lemma compute_changes_quiz_empty_iff_witness :
  @compute_changes_quiz elements_order ex_new ex_new = Ok ([], [], []) ↔
    ids_parse ex_new ∧ dom ex_new = dom ex_new ∧
    ∀ q ga gb, ex_new !! q = Some ga → ex_new !! q = Some gb →
      Forall2 same_fields ga gb.
Proof.
  apply (@compute_changes_quiz_empty_iff elements_order ex_new ex_new).
  - apply plain_ids_elements. vm_compute. reflexivity.
  - apply plain_ids_elements. vm_compute. reflexivity.
Defined.

Lemma index_diff_integer_ids_witness :
  (∃ c, @compute_changes_quiz elements_order
          (normalize_payload_to_index ex_payload_base_first)
          (normalize_payload_to_index ex_payload_duplicate) = Ok c) ∧
  @compute_changes_quiz elements_order
     (normalize_payload_to_index ex_payload_base_first)
     (normalize_payload_to_index ex_payload_base_first) = Ok ([], [], []).
Proof.
  apply (@index_diff_integer_ids elements_order ex_payload_base_first ex_payload_duplicate).
  - apply Forall_cons_2; [|apply Forall_nil_2].
    intros qid [= <-]. right. exists 1%Z. split; [done|]. by apply Nat.leb_le.
  - apply Forall_cons_2; [|apply Forall_cons_2; [|apply Forall_nil_2]].
    + intros qid [= <-]. right. exists 1%Z. split; [done|]. by apply Nat.leb_le.
    + intros qid [= <-]. right. exists 1%Z. split; [done|]. by apply Nat.leb_le.
Defined.

Lemma index_diff_bad_id_witness :
  @compute_changes_quiz elements_order
     (normalize_payload_to_index ex_payload_base_first)
     (normalize_payload_to_index ex_payload_bool) = Raise ValueError ∧
  ∀ b, py_int (py_str (VBool b)) = None.
Proof.
  apply (@index_diff_bad_id elements_order ex_payload_base_first ex_payload_bool
           ex_item_bool "True").
  - simpl. right. left.
  - reflexivity.
  - vm_compute. reflexivity.
  - reflexivity.
Defined.

Lemma norm_list_order_independent_witness :
  norm_list (Item (Some (VInt 1)) (DueList [ex_base; ex_nonbase]))
    = norm_list (Item (Some (VInt 1)) (DueList [ex_nonbase; ex_base])).
Proof.
  apply norm_list_order_independent.
  - apply Permutation_swap.
  - apply (bool_decide_unpack _). vm_compute. exact I.
Defined.

Lemma parse_cookie_string_clean_witness : clean_cookie ("b", "2").
Proof.
  apply (parse_cookie_string_clean " a=1 ; b = 2 ;; c").
  vm_compute. reflexivity.
Defined.

Lemma parse_cookie_string_no_equals_witness :
  parse_cookie_string "session abc; csrf" = ∅.
Proof.
  apply parse_cookie_string_no_equals.
  apply (bool_decide_unpack _). vm_compute. exact I.
Defined.


Lemma next_link_header_witness :
  next_link (Some (String.concat "," (link_text <$> ex_links)))
    = Ok (fst <$> head (filter (λ p, str_contains REL_NEXT p.2 = true) ex_links)).
Proof.
  apply next_link_header; [done|].
  repeat constructor; try (vm_compute; reflexivity);
    apply (bool_decide_unpack _); vm_compute; exact I.
Defined.

Lemma next_link_malformed_witness :
  next_link (Some (String.concat ","
      ((link_text <$> [("https://canvas/api?page=1", ex_rel_current)])
         ++ ex_link_two_parameters :: [])))
    = Raise ValueError.
Proof.
  apply next_link_malformed.
  - repeat constructor; try (vm_compute; reflexivity);
      apply (bool_decide_unpack _); vm_compute; exact I.
  - repeat constructor.
  - apply (bool_decide_unpack _). vm_compute. exact I.
  - vm_compute. lia.
  - done.
  - constructor.
Defined.
